(** * ismrmrdtools.coils: coil sensitivity maps and noise prewhitening

    A shallow embedding of [src/ismrmrdtools/coils.py] and the properties
    its specification states about it.

    Number model.  The Python code computes in IEEE double precision; this
    development uses the exact real numbers of the Standard Library, with
    a complex number as a pair of reals.  Rounding is therefore not
    modelled.  What is modelled of the floating-point behaviour is the one
    thing the code can observably produce besides finite numbers: the NaN
    that results from dividing a zero vector by its zero norm.  A NaN is
    written [None] in the outputs.  The one statement that is about the
    stored numbers themselves is checked on binary64 numbers, in the
    module [Binary64].

    Array model.  A numpy array is its shape together with the function
    from a multi-index to the value stored there. *)

From Stdlib Require Import Reals Lra Lia List ZArith Bool Arith.
From Stdlib Require Import FunctionalExtensionality.
From Stdlib Require Floats QArith.
Import ListNotations.

Set Implicit Arguments.

Local Open Scope R_scope.

(** ** Complex numbers *)

Module Cplx.

Definition C : Type := (R * R)%type.

Definition Re (z : C) : R := fst z.
Definition Im (z : C) : R := snd z.

Definition RtoC (r : R) : C := (r, 0).
Definition C0 : C := RtoC 0.
Definition C1 : C := RtoC 1.
(** The Python literal [1j]. *)
Definition Ci : C := (0, 1).

Definition Cadd (z w : C) : C := (Re z + Re w, Im z + Im w).
Definition Cmul (z w : C) : C :=
  (Re z * Re w - Im z * Im w, Re z * Im w + Im z * Re w).
Definition Csub (z w : C) : C := (Re z - Re w, Im z - Im w).
Definition Cconj (z : C) : C := (Re z, - Im z).
(** Squared modulus. *)
Definition Cabs2 (z : C) : R := Re z * Re z + Im z * Im z.
Definition Cdiv (z w : C) : C :=
  ((Re z * Re w + Im z * Im w) / Cabs2 w,
   (Im z * Re w - Re z * Im w) / Cabs2 w).

End Cplx.
Import Cplx.

(** ** Python exceptions and results *)

Inductive exn : Type :=
| AssertionError     (* a failed [assert] *)
| ZeroDivisionError  (* Python [int] or [float] division by zero *)
| IndexError         (* [shape[0]] of a 0-dimensional array *)
| LinAlgError.       (* raised by [np.linalg.cholesky] and [np.linalg.inv] *)

Inductive result (A : Type) : Type :=
| Raise (e : exn)
| Return (a : A).
Arguments Raise {A} e.
Arguments Return {A} a.

Definition bind {A B} (r : result A) (k : A -> result B) : result B :=
  match r with
  | Raise e => Raise e
  | Return a => k a
  end.

Notation "x <- r ;; k" := (bind r (fun x => k))
  (at level 61, r at next level, right associativity).

Definition result_map {A B} (f : A -> B) (r : result A) : result B :=
  x <- r ;; Return (f x).

(** ** numpy arrays *)

Record ndarray (A : Type) : Type := mkArr {
  shape : list nat;
  elem : list nat -> A
}.

Definition ndim {A} (a : ndarray A) : nat := length (shape a).
Definition size {A} (a : ndarray A) : nat := fold_right Nat.mul 1%nat (shape a).

(** [a.real] and [a.imag]. *)
Definition real (a : ndarray C) : ndarray R :=
  mkArr (shape a) (fun idx => Re (elem a idx)).
Definition imag (a : ndarray C) : ndarray R :=
  mkArr (shape a) (fun idx => Im (elem a idx)).

(** ** scipy.ndimage.uniform_filter

    The library routine [smooth] calls, in exact arithmetic, with the
    defaults the call leaves in place: [mode='reflect'] and [origin=0]. *)

(** Position in a line of length [n] that the extended line shows at
    offset [i]: ... d c b a | a b c d | d c b a ... *)
Definition reflect_index (n : nat) (i : Z) : nat :=
  let m := Z.to_nat (i mod (2 * Z.of_nat n)) in
  if (m <? n)%nat then m else (2 * n - 1 - m)%nat.

(** The multi-index [idx] with its entry on axis [ax] replaced by [j]. *)
Fixpoint set_axis (ax : nat) (j : nat) (idx : list nat) : list nat :=
  match idx, ax with
  | [], _ => []
  | _ :: t, O => j :: t
  | i :: t, S a => i :: set_axis a j t
  end.

Definition Rsum (f : nat -> R) (n : nat) : R :=
  fold_right Rplus 0 (map f (seq 0 n)).

(** Mean over the window of [sz] samples that starts [sz / 2] before the
    current position on axis [ax]. *)
Definition uniform_filter1d (inp : ndarray R) (sz : nat) (ax : nat)
  : ndarray R :=
  mkArr (shape inp) (fun idx =>
    let n := nth ax (shape inp) 0%nat in
    let i := Z.of_nat (nth ax idx 0%nat) in
    Rsum (fun k =>
            elem inp
              (set_axis ax
                 (reflect_index n (i - Z.of_nat (sz / 2) + Z.of_nat k)) idx))
         sz / INR sz).

(** One pass per axis, each on the output of the pass before; axes whose
    window is not larger than 1 are skipped, and when all are skipped the
    input is copied. *)
Definition uniform_filter (inp : ndarray R) (sz : nat) : ndarray R :=
  if (1 <? sz)%nat
  then fold_left (fun a ax => uniform_filter1d a sz ax) (seq 0 (ndim inp)) inp
  else inp.

(** ** smooth *)

Definition smooth (img : ndarray C) (box : nat) : ndarray C :=
  let t_real := uniform_filter (real img) box in
  let t_imag := uniform_filter (imag img) box in
  mkArr (shape t_real)
        (fun idx => Cadd (RtoC (elem t_real idx))
                         (Cmul Ci (RtoC (elem t_imag idx)))).

(** ** Vectors and matrices across the coil axis

    The per-pixel matrix [R = Rs[:,:,y,x]] is a list of rows, the vector
    [v] a list. *)

Definition vec : Type := list C.
Definition mat : Type := list (list C).

Definition Csum (l : list C) : C := fold_left Cadd l C0.

Definition vadd (u v : vec) : vec :=
  map (fun p => Cadd (fst p) (snd p)) (combine u v).

(** [np.sum(R, axis=0)]: the rows of [R] added up, entry for entry. *)
Definition sum_axis0 (n : nat) (R : mat) : vec :=
  fold_left vadd R (repeat C0 n).

(** [np.dot(R, v)]. *)
Definition dot (R : mat) (v : vec) : vec :=
  map (fun row => Csum (map (fun p => Cmul (fst p) (snd p)) (combine row v)))
      R.

(** [np.linalg.norm(v)]: the 2-norm. *)
Definition norm (v : vec) : R :=
  sqrt (fold_right Rplus 0 (map Cabs2 v)).

(** The pair [(v, lam)] the loop body carries.  [None] for [v] says every
    entry of [v] is NaN, [None] for [lam] says [lam] is NaN. *)
Definition eigstate : Type := (option vec * option R)%type.

(** [lam = np.linalg.norm(w); v = w/lam].  The norm is zero only when [w]
    is the zero vector, and then every entry of [w/lam] is [0/0]; numpy
    warns and stores NaN.  An empty [w] has no entry to spoil. *)
Definition normalize (w : vec) : eigstate :=
  let lam := norm w in
  if Req_EM_T lam 0
  then (match w with [] => Some [] | _ :: _ => None end, Some lam)
  else (Some (map (fun z => Cdiv z (RtoC lam)) w), Some lam).

(** One pass through the body of [for iter in range(niter)].  A NaN
    vector stays NaN, and so does its norm. *)
Definition power_step (R : mat) (st : eigstate) : eigstate :=
  match fst st with
  | Some v => normalize (dot R v)
  | None => (None, None)
  end.

Fixpoint power_loop (R : mat) (niter : nat) (st : eigstate) : eigstate :=
  match niter with
  | O => st
  | S k => power_loop R k (power_step R st)
  end.

(** The body of the loop over [y] and [x], for the matrix at one pixel. *)
Definition pixel_eig (ncoils : nat) (R : mat) (niter : nat) : eigstate :=
  power_loop R niter (normalize (sum_axis0 ncoils R)).

(** ** calculate_csm_walsh *)

(** [Rs[p,q,:,:] = img[p,:,:] * np.conj(img[q,:,:])]. *)
Definition pointwise_covariance (img : ndarray C) : ndarray C :=
  let ncoils := nth 0 (shape img) 0%nat in
  mkArr (ncoils :: shape img)
        (fun idx =>
           match idx with
           | p :: q :: yx =>
               Cmul (elem img (p :: yx)) (Cconj (elem img (q :: yx)))
           | _ => C0
           end).

(** [Rs[p,q,:,:]]. *)
Definition plane (Rs : ndarray C) (p q : nat) : ndarray C :=
  mkArr (skipn 2 (shape Rs)) (fun yx => elem Rs (p :: q :: yx)).

(** [Rs[p,q] = smooth(Rs[p,q,:,:], smoothing)] for every [p] and [q]. *)
Definition smooth_covariance (Rs : ndarray C) (smoothing : nat) : ndarray C :=
  mkArr (shape Rs)
        (fun idx =>
           match idx with
           | p :: q :: yx => elem (smooth (plane Rs p q) smoothing) yx
           | _ => C0
           end).

(** [Rs[:,:,y,x]]. *)
Definition local_matrix (Rs : ndarray C) (ncoils y x : nat) : mat :=
  map (fun p => map (fun q => elem Rs [p; q; y; x]) (seq 0 ncoils))
      (seq 0 ncoils).

(** [smoothing] and [niter] are Python ints; a negative one acts as 0
    does (no axis is filtered, [range(niter)] is empty). *)
Definition calculate_csm_walsh (img : ndarray C) (smoothing niter : nat)
  : result (ndarray (option C) * ndarray (option R)) :=
  if (ndim img =? 3)%nat then
    let ncoils := nth 0 (shape img) 0%nat in
    let ny := nth 1 (shape img) 0%nat in
    let nx := nth 2 (shape img) 0%nat in
    let Rs := smooth_covariance (pointwise_covariance img) smoothing in
    let eig y x := pixel_eig ncoils (local_matrix Rs ncoils y x) niter in
    let rho :=
      mkArr [ny; nx]
            (fun idx => match idx with
                        | [y; x] => snd (eig y x)
                        | _ => Some 0
                        end) in
    let csm :=
      mkArr [ncoils; ny; nx]
            (fun idx => match idx with
                        | [c; y; x] =>
                            match fst (eig y x) with
                            | Some v => Some (nth c v C0)
                            | None => None
                            end
                        | _ => Some C0
                        end) in
    Return (csm, rho)
  else Raise AssertionError.

(** ** calculate_prewhitening *)

(** Row-major position [k] in an array of shape [dims], as a multi-index. *)
Fixpoint unravel (dims : list nat) (k : nat) : list nat :=
  match dims with
  | [] => []
  | _ :: ds =>
      let s := fold_right Nat.mul 1%nat ds in
      (k / s)%nat :: unravel ds (k mod s)
  end.

(** [noise.reshape((noise.shape[0], noise.size/noise.shape[0]))].  The
    quotient is passed to [reshape] as a dimension, so [/] is the integer
    division it is on two Python 2 ints.  The first axis is kept, the
    remaining axes are flattened in row-major order. *)
Definition reshape_coil_samples (noise : ndarray C) : result (ndarray C) :=
  match shape noise with
  | [] => Raise IndexError
  | n0 :: rest =>
      if (n0 =? 0)%nat then Raise ZeroDivisionError
      else
        Return
          (mkArr [n0; (size noise / n0)%nat]
                 (fun idx => match idx with
                             | [c; m] => elem noise (c :: unravel rest m)
                             | _ => C0
                             end))
  end.

(** Two-dimensional arrays as [np.matrix]: [*] is the matrix product,
    [.H] the conjugate transpose. *)
Definition nrows (a : ndarray C) : nat := nth 0 (shape a) 0%nat.
Definition ncols (a : ndarray C) : nat := nth 1 (shape a) 0%nat.

Definition mat_H (a : ndarray C) : ndarray C :=
  mkArr [ncols a; nrows a]
        (fun idx => match idx with
                    | [i; j] => Cconj (elem a [j; i])
                    | _ => C0
                    end).

Definition matmul (a b : ndarray C) : ndarray C :=
  mkArr [nrows a; ncols b]
        (fun idx => match idx with
                    | [i; j] =>
                        Csum (map (fun k => Cmul (elem a [i; k])
                                                 (elem b [k; j]))
                                  (seq 0 (ncols a)))
                    | _ => C0
                    end).

(** [s * a] and [a * s] for a real scalar [s]. *)
Definition scale_left (s : R) (a : ndarray C) : ndarray C :=
  mkArr (shape a)
        (fun idx => match idx with
                    | [_; _] => Cmul (RtoC s) (elem a idx)
                    | _ => C0
                    end).
Definition scale_right (a : ndarray C) (s : R) : ndarray C :=
  mkArr (shape a)
        (fun idx => match idx with
                    | [_; _] => Cmul (elem a idx) (RtoC s)
                    | _ => C0
                    end).

Section Prewhitening.

(** The two LAPACK-backed numpy routines the function calls.  Each either
    returns a matrix or raises [LinAlgError]. *)
Variable linalg_cholesky : ndarray C -> result (ndarray C).
Variable linalg_inv : ndarray C -> result (ndarray C).

(** [scale_factor] is taken non-negative: [np.sqrt] of a negative float is
    NaN, which [sqrt] on the reals does not show. *)
Definition calculate_prewhitening (noise : ndarray C) (scale_factor : R)
  : result (ndarray C) :=
  noise_int <- reshape_coil_samples noise ;;
  let M := INR (ncols noise_int) in
  if Req_EM_T (M - 1) 0 then Raise ZeroDivisionError
  else
    let dmtx := scale_left (1 / (M - 1)) (matmul noise_int (mat_H noise_int)) in
    dmtx <- linalg_cholesky dmtx ;;
    dmtx <- linalg_inv dmtx ;;
    Return (scale_right (scale_right dmtx (sqrt 2)) (sqrt scale_factor)).

End Prewhitening.

(** ** apply_prewhitening *)

(** What the function can raise: the errors of reshaping [data], and
    numpy's [ValueError] for shapes that do not fit. *)
Inductive apply_exn : Type :=
| ValueError
| ReshapeError (e : exn).

(** Row-major position of the multi-index [idx] in an array of shape
    [dims]. *)
Fixpoint ravel (dims idx : list nat) : nat :=
  match dims, idx with
  | _ :: ds, i :: rest => (i * fold_right Nat.mul 1 ds + ravel ds rest)%nat
  | _, _ => 0%nat
  end.

(** [np.asmatrix]: a 0-dimensional array becomes 1x1, a 1-dimensional one
    a single row, a 2-dimensional one is taken as it is, and more
    dimensions are refused. *)
Definition asmatrix (a : ndarray C) : option (ndarray C) :=
  match shape a with
  | [] => Some (mkArr [1; 1]%nat (fun _ => elem a []))
  | [n] => Some (mkArr [1%nat; n]
                       (fun idx => match idx with
                                   | [_; j] => elem a [j]
                                   | _ => C0
                                   end))
  | [_; _] => Some a
  | _ => None
  end.

(** [np.asarray(np.asmatrix(dmtx) * np.asmatrix(data.reshape(...)))
    .reshape(s)].  The left factor is evaluated first; the product needs
    as many columns on the left as rows on the right; the last reshape
    needs as many entries as [data] has, and reads the product in
    row-major order. *)
Definition apply_prewhitening (data dmtx : ndarray C)
  : apply_exn + ndarray C :=
  match asmatrix dmtx with
  | None => inl ValueError
  | Some A =>
      match reshape_coil_samples data with
      | Raise e => inl (ReshapeError e)
      | Return N =>
          if (ncols A =? nrows N)%nat then
            let P := matmul A N in
            if (nrows P * ncols P =? size data)%nat then
              inr (mkArr (shape data)
                         (fun idx =>
                            let k := ravel (shape data) idx in
                            elem P [(k / ncols P)%nat; (k mod ncols P)%nat]))
            else inl ValueError
          else inl ValueError
      end
  end.

(** ** Exact models of the two numpy routines

    What [np.linalg.cholesky] and [np.linalg.inv] return in exact
    arithmetic, so that [calculate_prewhitening] can be run on a concrete
    input.  The theorems on [calculate_prewhitening] take the two
    routines as parameters. *)

Module Linalg.

(** Column [j] of the lower-triangular factor from the columns before it.
    As LAPACK does, only the lower triangle of [A] is read, and a pivot
    that is not positive is reported. *)
Definition cholesky_column (A : ndarray C)
  (acc : result (nat -> nat -> C)) (j : nat) : result (nat -> nat -> C) :=
  L <- acc ;;
  let d := Re (elem A [j; j]) - Rsum (fun k => Cabs2 (L j k)) j in
  if Rlt_dec 0 d then
    Return (fun i' j' =>
              if (j' =? j)%nat then
                if (i' =? j)%nat then RtoC (sqrt d)
                else if (j <? i')%nat then
                  Cdiv (Csub (elem A [i'; j])
                             (Csum (map (fun k => Cmul (L i' k) (Cconj (L j k)))
                                        (seq 0 j))))
                       (RtoC (sqrt d))
                else C0
              else L i' j')
  else Raise LinAlgError.

Definition cholesky (A : ndarray C) : result (ndarray C) :=
  L <- fold_left (cholesky_column A) (seq 0 (nrows A))
                 (Return (fun _ _ => C0)) ;;
  Return (mkArr (shape A)
                (fun idx => match idx with
                            | [i; j] => L i j
                            | _ => C0
                            end)).

Definition Cis_zero (z : C) : bool :=
  if Req_EM_T (Re z) 0 then if Req_EM_T (Im z) 0 then true else false
  else false.

Definition swap_rows (r k : nat) (M : nat -> nat -> C) : nat -> nat -> C :=
  fun i j => if (i =? k)%nat then M r j
             else if (i =? r)%nat then M k j else M i j.

(** Gauss-Jordan elimination on column [k] of the pair (matrix, inverse so
    far): pick a row with a non-zero entry, bring it up, scale it, clear
    the column elsewhere. *)
Definition eliminate (k : nat) (piv : C) (A M : nat -> nat -> C)
  : nat -> nat -> C :=
  fun i j => if (i =? k)%nat then Cdiv (M k j) piv
             else Csub (M i j) (Cmul (A i k) (Cdiv (M k j) piv)).

Definition gauss_jordan_column (n : nat)
  (acc : result ((nat -> nat -> C) * (nat -> nat -> C))) (k : nat)
  : result ((nat -> nat -> C) * (nat -> nat -> C)) :=
  st <- acc ;;
  match find (fun r => negb (Cis_zero (fst st r k))) (seq k (n - k)) with
  | None => Raise LinAlgError
  | Some r =>
      let A1 := swap_rows r k (fst st) in
      let B1 := swap_rows r k (snd st) in
      Return (eliminate k (A1 k k) A1 A1, eliminate k (A1 k k) A1 B1)
  end.

Definition inv (A : ndarray C) : result (ndarray C) :=
  st <- fold_left (gauss_jordan_column (nrows A)) (seq 0 (nrows A))
                  (Return (fun i j => elem A [i; j],
                           fun i j => if (i =? j)%nat then C1 else C0)) ;;
  Return (mkArr (shape A)
                (fun idx => match idx with
                            | [i; j] => snd st i j
                            | _ => C0
                            end)).

End Linalg.

(** ** The algorithms as the specification words them *)

Module Spec.

Definition entry_sum (f : nat -> C) (n : nat) : C :=
  fold_right Cadd C0 (map f (seq 0 n)).

Definition entry (R : mat) (p q : nat) : C := nth q (nth p R []) C0.

(** "the row-sum vector [v0 = sum over q of R[:,q]]". *)
Definition row_sum_vector (n : nat) (R : mat) : vec :=
  map (fun p => entry_sum (fun q => entry R p q) n) (seq 0 n).

(** The vector of column sums, [v0[q] = sum over p of R[p,q]]. *)
Definition col_sum_vector (n : nat) (R : mat) : vec :=
  map (fun q => entry_sum (fun p => entry R p q) n) (seq 0 n).

(** [R·v]. *)
Definition mat_vec (n : nat) (R : mat) (v : vec) : vec :=
  map (fun p => entry_sum (fun q => Cmul (entry R p q) (nth q v C0)) n)
      (seq 0 n).

(** "its Euclidean norm": the square root of the sum of the squared
    moduli of the [n] entries. *)
Definition euclidean_norm (n : nat) (v : vec) : R :=
  sqrt (Rsum (fun q => Re (nth q v C0) * Re (nth q v C0) +
                       Im (nth q v C0) * Im (nth q v C0)) n).

(** "v/lambda": every entry divided by the real number [lam]. *)
Definition divide (n : nat) (v : vec) (lam : R) : vec :=
  map (fun q => (Re (nth q v C0) / lam, Im (nth q v C0) / lam)) (seq 0 n).

(** The eigenvector estimate with the power estimate. *)
Definition estimate : Type := (vec * R)%type.

(** "v <- R·v; lambda <- ||v||; v <- v/lambda". *)
Definition iteration (n : nat) (R : mat) (st : estimate) : estimate :=
  let w := mat_vec n R (fst st) in
  let lam := euclidean_norm n w in
  (divide n w lam, lam).

(** "normalize by its Euclidean norm to obtain the initial power estimate
    and unit vector", then "repeat exactly [niter] times".  The result is
    the last vector with the last power estimate.  The specification
    words the method for norms that are not zero. *)
Definition power_method (init : nat -> mat -> vec) (n : nat) (R : mat)
  (niter : nat) : estimate :=
  let v0 := init n R in
  let lam0 := euclidean_norm n v0 in
  Nat.iter niter (iteration n R) (divide n v0 lam0, lam0).

(** "C = (1/(M-1)) · N · N^H", entry by entry, for [N] of shape (n, M). *)
Definition sample_covariance (N : ndarray C) : ndarray C :=
  let n := nrows N in
  let M := ncols N in
  mkArr [n; n]
        (fun idx =>
           match idx with
           | [i; j] =>
               Cmul (RtoC (1 / (INR M - 1)))
                    (entry_sum (fun m => Cmul (elem N [i; m])
                                              (Cconj (elem N [j; m]))) M)
           | _ => C0
           end).

(** Every multi-index of an array of shape [dims], in row-major order:
    the last index varies fastest. *)
Fixpoint indices (dims : list nat) : list (list nat) :=
  match dims with
  | [] => [[]]
  | d :: ds => flat_map (fun i => map (cons i) (indices ds)) (seq 0 d)
  end.

(** "reshaping noise to (coil, M)": the entries of the noise, read in
    row-major order, fill the rows of the reshaped array one after the
    other, so that entry (c, m) is entry number [c * M + m] of the noise.
    [M] is the number of entries divided by the number of coils. *)
Definition coil_samples (noise : ndarray C) : ndarray C :=
  let n := nth 0 (shape noise) 0%nat in
  let M := (size noise / n)%nat in
  mkArr [n; M]
        (fun idx =>
           match idx with
           | [c; m] => elem noise (nth (c * M + m) (indices (shape noise)) [])
           | _ => C0
           end).

(** [L] is the lower-triangular Cholesky factor of the [n] by [n] matrix
    [A]: nothing above the diagonal, a positive real diagonal, and
    [L · L^H = A]. *)
Definition cholesky_factor (n : nat) (L A : ndarray C) : Prop :=
  (forall i j, (i < j)%nat -> (j < n)%nat -> elem L [i; j] = C0) /\
  (forall i, (i < n)%nat ->
             Im (elem L [i; i]) = 0 /\ 0 < Re (elem L [i; i])) /\
  (forall i j, (i < n)%nat -> (j < n)%nat ->
     entry_sum (fun k => Cmul (elem L [i; k]) (Cconj (elem L [j; k]))) n
     = elem A [i; j]).

(** [Ai] is the inverse of the [n] by [n] matrix [A]: [Ai · A] is the
    identity. *)
Definition inverse_of (n : nat) (Ai A : ndarray C) : Prop :=
  forall i j, (i < n)%nat -> (j < n)%nat ->
    entry_sum (fun k => Cmul (elem Ai [i; k]) (elem A [k; j])) n
    = if (i =? j)%nat then C1 else C0.

(** Steps 1 to 4 of the noise decorrelation estimator: [W] is the inverse
    of the Cholesky factor of the sample covariance of the reshaped
    noise, multiplied by [sqrt 2 * sqrt scale_factor]. *)
Definition is_whitening_matrix (noise : ndarray C) (scale_factor : R)
  (W : ndarray C) : Prop :=
  let n := nth 0 (shape noise) 0%nat in
  exists L Li,
    cholesky_factor n L (sample_covariance (coil_samples noise)) /\
    inverse_of n Li L /\
    shape W = [n; n] /\
    forall i j, (i < n)%nat -> (j < n)%nat ->
      elem W [i; j]
      = Cmul (RtoC (sqrt 2 * sqrt scale_factor)) (elem Li [i; j]).

End Spec.

(** ** Concrete inputs *)

Module Inputs.

(** Two coils, 4x4 pixels, coil 0 equal to [1+0j] and coil 1 to [0+1j]
    everywhere. *)
Definition two_coil_constant : ndarray C :=
  mkArr [2; 4; 4]%nat
        (fun idx => match idx with
                    | O :: _ => C1
                    | _ => Ci
                    end).

(** Its value on coil [c]. *)
Definition two_coil_value (c : nat) : C :=
  match c with O => C1 | S _ => Ci end.

(** [[1, -1j], [1j, 1]]. *)
Definition covariance_2x2 : mat := [[C1; (0, -1)]; [Ci; C1]].

(** [(1+1j)/2, (1-1j)/2]. *)
Definition initial_vector : vec := [(1 / 2, 1 / 2); (1 / 2, -1 / 2)].

(** [(1-1j)/2, (1+1j)/2]. *)
Definition row_sum_unit : vec := [(1 / 2, -1 / 2); (1 / 2, 1 / 2)].

(** One coil, one row of two pixels holding 1 and 0. *)
Definition one_coil_step : ndarray C :=
  mkArr [1; 1; 2]%nat
        (fun idx => match idx with
                    | [_; _; O] => C1
                    | _ => C0
                    end).

(** A two-dimensional array, which is not a coil image stack. *)
Definition flat_image : ndarray C :=
  mkArr [4; 4]%nat (fun _ => C1).

(** Noise of two coils with one sample each. *)
Definition noise_one_sample : ndarray C :=
  mkArr [2; 1]%nat (fun _ => C1).

(** Noise of one coil with the two samples 1 and [1j]. *)
Definition noise_two_samples : ndarray C :=
  mkArr [1; 2]%nat
        (fun idx => match idx with
                    | [_; O] => C1
                    | _ => Ci
                    end).

(** Noise of two coils with two samples each, stored as one line of two
    samples per coil: coil 0 holds 1 and 0, coil 1 holds [1j] and 1. *)
Definition noise_two_coils : ndarray C :=
  mkArr [2; 1; 2]%nat
        (fun idx => match idx with
                    | [O; _; O] => C1
                    | [O; _; _] => C0
                    | [_; _; O] => Ci
                    | _ => C1
                    end).

(** Two coils, 4x4 pixels, coil 0 equal to 2 and coil 1 to 3 everywhere. *)
Definition two_coil_real : ndarray C :=
  mkArr [2; 4; 4]%nat
        (fun idx => match idx with
                    | O :: _ => RtoC 2
                    | _ => RtoC 3
                    end).

(** Its value on coil [c]. *)
Definition two_coil_real_value (c : nat) : C :=
  match c with O => RtoC 2 | S _ => RtoC 3 end.

End Inputs.

(** ** The loop body on binary64 numbers

    Lines 76 to 86 as numpy evaluates them on IEEE double precision
    numbers, for the one statement that is about the stored numbers
    themselves.  Every operation is the correctly rounded one of the
    primitive floats. *)

Module Binary64.

Import Stdlib.Floats.Floats Stdlib.QArith.QArith.
Local Open Scope float_scope.

(** A [complex128] number. *)
Definition complex : Type := (float * float)%type.

Definition fadd (a b : complex) : complex := (fst a + fst b, snd a + snd b).
Definition fmul (a b : complex) : complex :=
  (fst a * fst b - snd a * snd b, fst a * snd b + snd a * fst b).

(** [v/lam] on a complex array and a real scalar.  numpy converts the
    scalar to a complex number and divides as its complex division loop
    does: by the ratio of the smaller to the larger part of the divisor
    and one reciprocal. *)
Definition fdiv (a : complex) (lam : float) : complex :=
  let (ar, ai) := a in
  let (br, bi) := (lam, 0) in
  if PrimFloat.leb (abs bi) (abs br) then
    if PrimFloat.eqb (abs br) 0 && PrimFloat.eqb (abs bi) 0
    then (ar / abs br, ai / abs br)
    else
      let rat := bi / br in
      let scl := 1 / (br + bi * rat) in
      ((ar + ai * rat) * scl, (ai - ar * rat) * scl)
  else
    let rat := br / bi in
    let scl := 1 / (bi + br * rat) in
    ((ar * rat + ai) * scl, (ai * rat - ar) * scl).

(** The same quotient formed part by part, as a division by a real
    number is on Python's own complex numbers. *)
Definition fdiv_parts (a : complex) (lam : float) : complex :=
  (fst a / lam, snd a / lam).

(** [np.sum(R,axis=0)], [np.dot(R,v)] and [np.linalg.norm(v)], adding up
    from the first entry to the last. *)
Definition fsum_axis0 (n : nat) (R : list (list complex)) : list complex :=
  fold_left (fun u v => map (fun p => fadd (fst p) (snd p)) (combine u v))
            R (repeat (0, 0) n).
Definition fdot (R : list (list complex)) (v : list complex)
  : list complex :=
  map (fun row =>
         fold_left fadd (map (fun p => fmul (fst p) (snd p)) (combine row v))
                   (0, 0))
      R.
Definition fnorm (v : list complex) : float :=
  sqrt (fold_left (fun s z => s + fst z * fst z) v 0 +
        fold_left (fun s z => s + snd z * snd z) v 0).

Section Division.

Variable divide : complex -> float -> complex.

(** [lam = np.linalg.norm(v); v = v/lam]. *)
Definition fnormalize (w : list complex) : list complex * float :=
  let lam := fnorm w in (map (fun z => divide z lam) w, lam).

Fixpoint fpower_loop (R : list (list complex)) (niter : nat)
  (st : list complex * float) : list complex * float :=
  match niter with
  | O => st
  | S k => fpower_loop R k (fnormalize (fdot R (fst st)))
  end.

(** The vector and the power stored at one pixel. *)
Definition fpixel_eig (n : nat) (R : list (list complex)) (niter : nat)
  : list complex * float :=
  fpower_loop R niter (fnormalize (fsum_axis0 n R)).

End Division.

(** The rational number a finite binary64 number is. *)
Definition exact (x : float) : Q :=
  match Prim2SF x with
  | S754_finite s m e => (if s then -1 else 1) * (Zpos m # 1) * Qpower 2 e
  | _ => 0
  end%Q.

(** The sum of the squared moduli of the entries, without rounding. *)
Definition squared_norm (v : list complex) : Q :=
  fold_right Qplus 0%Q
    (map (fun z => exact (fst z) * exact (fst z) +
                   exact (snd z) * exact (snd z))%Q v).

(** The Euclidean norm of the stored vector is 1. *)
Definition unit_norm (v : list complex) : Prop := (squared_norm v == 1)%Q.

(** [np.linalg.norm] of the stored vector evaluates to 1. *)
Definition computed_unit_norm (v : list complex) : bool :=
  PrimFloat.eqb (fnorm v) 1.

(** The smoothed covariance matrix [[4, 6], [6, 9]] of the stack
    [Inputs.two_coil_real], the same at every pixel.  Its entries, and the
    window sums 20, 30 and 45 they are the means of, are binary64
    numbers, so that nothing is rounded before the loop. *)
Definition covariance_2_3 : list (list complex) :=
  [[(4, 0); (6, 0)]; [(6, 0); (9, 0)]].

End Binary64.

(** ** Notions the statements use *)

(** The array with every entry negated. *)
Definition arr_neg (a : ndarray R) : ndarray R :=
  mkArr (shape a) (fun idx => - elem a idx).

(** Sum of the squared moduli of the entries. *)
Definition sumsq (v : vec) : R := fold_right Rplus 0 (map Cabs2 v).

(** [w / norm w]. *)
Definition unit_vector (w : vec) : vec :=
  map (fun z => Cdiv z (RtoC (norm w))) w.

(** The vectors whose norms the code divides by at one pixel: the sum
    over axis 0 first, then each product [R·v]. *)
Fixpoint iterate_product (ncoils : nat) (R : mat) (k : nat) : vec :=
  match k with
  | O => sum_axis0 ncoils R
  | S j => dot R (unit_vector (iterate_product ncoils R j))
  end.

(** None of the [niter + 1] norms is zero. *)
Definition nondegenerate (ncoils : nat) (R : mat) (niter : nat) : Prop :=
  forall k, (k <= niter)%nat -> norm (iterate_product ncoils R k) <> 0.

(** The smoothed covariance matrix at pixel (y, x). *)
Definition smoothed_local_matrix (img : ndarray C) (smoothing y x : nat)
  : mat :=
  local_matrix (smooth_covariance (pointwise_covariance img) smoothing)
               (nth 0 (shape img) 0%nat) y x.

(** [|img[0]|^2], the squared magnitude of the first coil's image. *)
Definition magnitude_squared (img : ndarray C) : ndarray R :=
  mkArr (skipn 1 (shape img)) (fun yx => Cabs2 (elem img (O :: yx))).

(** The number of samples each coil has: [noise.size/noise.shape[0]]. *)
Definition samples_per_coil (noise : ndarray C) : nat :=
  (size noise / nth 0 (shape noise) 0)%nat.

(** The multi-index [idx] lies inside an array of shape [dims]. *)
Definition in_range (dims idx : list nat) : Prop := Forall2 lt idx dims.

(** The [n] by [n] identity matrix. *)
Definition identity_matrix (n : nat) : ndarray C :=
  mkArr [n; n]
        (fun idx => match idx with
                    | [i; j] => if (i =? j)%nat then C1 else C0
                    | _ => C0
                    end).

(** Every entry multiplied by the complex number [z]. *)
Definition arr_scale (z : C) (a : ndarray C) : ndarray C :=
  mkArr (shape a) (fun idx => Cmul z (elem a idx)).

(** Entry-wise sum and conjugate. *)
Definition arr_add (a b : ndarray C) : ndarray C :=
  mkArr (shape a) (fun idx => Cadd (elem a idx) (elem b idx)).
Definition arr_conj (a : ndarray C) : ndarray C :=
  mkArr (shape a) (fun idx => Cconj (elem a idx)).

(** The values the coils hold at pixel (y, x). *)
Definition pixel_vector (img : ndarray C) (y x : nat) : vec :=
  map (fun c => elem img [c; y; x]) (seq 0 (nth 0 (shape img) 0%nat)).

(** [n] rows of [n] entries each. *)
Definition square (n : nat) (R : mat) : Prop :=
  length R = n /\ Forall (fun row => length row = n) R.

(** ** Notions the further properties use *)

(** The sum of [f a] over the entries [a] of a list. *)
Definition sumL {A} (f : A -> C) (l : list A) : C :=
  fold_right Cadd C0 (map f l).

(** Entry-wise sum of real arrays, and a real array times a number. *)
Definition rarr_add (a b : ndarray R) : ndarray R :=
  mkArr (shape a) (fun idx => elem a idx + elem b idx).
Definition rarr_scale (t : R) (a : ndarray R) : ndarray R :=
  mkArr (shape a) (fun idx => t * elem a idx).

(** A finite vector has one entry per coil and, unless there is no coil,
    norm 1 and a positive power; a NaN vector goes with power 0 (the
    division that spoilt it was the last one) or with a NaN power. *)
Definition state_ok (n : nat) (st : eigstate) : Prop :=
  match st with
  | (Some v, Some l) =>
      length v = n /\ ((n = 0%nat /\ l = 0) \/ (0 < l /\ norm v = 1))
  | (None, Some l) => l = 0
  | (None, None) => True
  | (Some _, None) => False
  end.

(** The loop state with its power multiplied by [t]. *)
Definition scale_power (t : R) (st : eigstate) : eigstate :=
  (fst st, option_map (Rmult t) (snd st)).

(** [u u^H] and [u^H v]. *)
Definition outer (u : vec) : mat :=
  map (fun a => map (fun b => Cmul a (Cconj b)) u) u.
Definition inner (u v : vec) : C :=
  Csum (map (fun p => Cmul (Cconj (fst p)) (snd p)) (combine u v)).

(** [dmtx = (1/(M-1))*np.asmatrix(noise_int)*np.asmatrix(noise_int).H]. *)
Definition noise_covariance (N : ndarray C) : ndarray C :=
  scale_left (1 / (INR (ncols N) - 1)) (matmul N (mat_H N)).

(** A stack of two 4x4 coil images that are zero everywhere, and an array
    of eight samples per coil without any coil. *)
Definition zero_stack : ndarray C := mkArr [2; 4; 4]%nat (fun _ => C0).
Definition no_coils : ndarray C := mkArr [0; 8]%nat (fun _ => C1).

(** * Properties *)

(** ** Complex arithmetic *)

Lemma C_eq (a b c d : R) : a = c -> b = d -> (a, b) = ((c, d) : C).
Proof. intros -> ->; reflexivity. Qed.

Lemma Cmul_conj_swap z w : Cmul w (Cconj z) = Cconj (Cmul z (Cconj w)).
Proof.
  destruct z as [a b], w as [c d]; unfold Cmul, Cconj; simpl.
  apply C_eq; lra.
Qed.

(** Dividing a complex number by a non-zero real divides both parts. *)
Lemma Cdiv_real z (r : R) : r <> 0 -> Cdiv z (RtoC r) = (Re z / r, Im z / r).
Proof.
  intros Hr; destruct z as [a b]; unfold Cdiv, Cabs2, RtoC; simpl.
  apply C_eq; field; lra.
Qed.

(** [t_real + 1j*t_imag] has real part [t_real] and imaginary part
    [t_imag]. *)
Lemma Cadd_re_i_im (a b : R) : Cadd (RtoC a) (Cmul Ci (RtoC b)) = (a, b).
Proof. unfold Cadd, Cmul, Ci, RtoC; simpl; apply C_eq; lra. Qed.

(** ** Arrays are equal when shape and entries are *)

Lemma ndarray_eq {A} (a b : ndarray A) :
  shape a = shape b -> (forall idx, elem a idx = elem b idx) -> a = b.
Proof.
  destruct a as [sa ea], b as [sb eb]; simpl; intros -> H.
  f_equal; apply functional_extensionality; exact H.
Qed.

(** ** The box filter *)

Lemma Rsum_ext f g n :
  (forall k, (k < n)%nat -> f k = g k) -> Rsum f n = Rsum g n.
Proof.
  unfold Rsum; intros H.
  assert (E : map f (seq 0 n) = map g (seq 0 n)).
  { apply map_ext_in; intros k Hk; apply in_seq in Hk; apply H; lia. }
  now rewrite E.
Qed.

Lemma Rsum_opp f n : Rsum (fun k => - f k) n = - Rsum f n.
Proof.
  unfold Rsum; induction (seq 0 n) as [|k l IH]; simpl; [lra|].
  rewrite IH; lra.
Qed.

Lemma Rsum_const c n : Rsum (fun _ => c) n = INR n * c.
Proof.
  unfold Rsum; generalize 0%nat; induction n as [|n IH]; intros s.
  - simpl; lra.
  - rewrite S_INR; simpl; rewrite IH; lra.
Qed.

Lemma Rsum_nonneg f n : (forall k, 0 <= f k) -> 0 <= Rsum f n.
Proof.
  intros H; unfold Rsum; induction (seq 0 n) as [|k l IH]; simpl; [lra|].
  specialize (H k); lra.
Qed.

Lemma uniform_filter_shape a sz : shape (uniform_filter a sz) = shape a.
Proof.
  unfold uniform_filter; destruct (1 <? sz)%nat; [|reflexivity].
  generalize (seq 0 (ndim a)); intros l; revert a.
  induction l as [|ax l IH]; intros a; simpl; [reflexivity|].
  now rewrite IH.
Qed.

Lemma uniform_filter1d_neg a sz ax :
  uniform_filter1d (arr_neg a) sz ax = arr_neg (uniform_filter1d a sz ax).
Proof.
  apply ndarray_eq; simpl; [reflexivity|]; intros idx.
  rewrite Rsum_opp; unfold Rdiv; lra.
Qed.

(** The filter is odd: negating the input negates the output. *)
Lemma uniform_filter_neg a sz :
  uniform_filter (arr_neg a) sz = arr_neg (uniform_filter a sz).
Proof.
  unfold uniform_filter; destruct (1 <? sz)%nat; [|reflexivity].
  change (ndim (arr_neg a)) with (ndim a).
  generalize (seq 0 (ndim a)); intros l; revert a.
  induction l as [|ax l IH]; intros a; simpl; [reflexivity|].
  now rewrite uniform_filter1d_neg, IH.
Qed.

(** A window of size at most 1 leaves the array as it is. *)
Lemma uniform_filter_small a sz : (sz <= 1)%nat -> uniform_filter a sz = a.
Proof.
  intros H; unfold uniform_filter.
  destruct (Nat.ltb_spec 1 sz); [lia|reflexivity].
Qed.

(** Entries of the smoothed field. *)
Lemma smooth_elem img box idx :
  elem (smooth img box) idx =
  (elem (uniform_filter (real img) box) idx,
   elem (uniform_filter (imag img) box) idx).
Proof. unfold smooth; simpl; apply Cadd_re_i_im. Qed.

Lemma smooth_shape img box : shape (smooth img box) = shape img.
Proof. unfold smooth; simpl; apply uniform_filter_shape. Qed.

(** ** smooth with window 1 *)

(** C8.  For every complex field [x], of 2, 3 or any other number of
    dimensions, [smooth x 1] has the shape and the values of [x], and so
    smoothing it once more with window 1 changes nothing. *)
Theorem smooth_box1_identity (x : ndarray C) :
  smooth x 1 = x /\ smooth (smooth x 1) 1 = smooth x 1.
Proof.
  assert (E : forall y, smooth y 1 = y).
  { intros y; apply ndarray_eq.
    - apply smooth_shape.
    - intros idx; rewrite smooth_elem.
      rewrite !uniform_filter_small by lia; simpl.
      destruct (elem y idx); reflexivity. }
  split; [apply E | now rewrite !E].
Qed.

(** ** The dimension check of calculate_csm_walsh *)

Lemma calculate_csm_walsh_returns img smoothing niter :
  ndim img = 3%nat ->
  exists out, calculate_csm_walsh img smoothing niter = Return out.
Proof.
  intros H; unfold calculate_csm_walsh; rewrite H; simpl; eauto.
Qed.

(** C9.  On an input whose number of dimensions is not 3 the function
    raises the assertion's error: nothing is computed and no maps are
    returned. *)
Theorem calculate_csm_walsh_invalid_shape
  (img : ndarray C) (smoothing niter : nat) :
  ndim img <> 3%nat ->
  calculate_csm_walsh img smoothing niter = Raise AssertionError.
Proof.
  intros H; unfold calculate_csm_walsh.
  destruct (Nat.eqb_spec (ndim img) 3); [contradiction|reflexivity].
Qed.

Lemma calculate_csm_walsh_invalid_shape_witness :
  ndim Inputs.flat_image <> 3%nat /\
  calculate_csm_walsh Inputs.flat_image 5 3 = Raise AssertionError.
Proof.
  split.
  - vm_compute; lia.
  - apply (@calculate_csm_walsh_invalid_shape Inputs.flat_image 5 3).
    vm_compute; lia.
Defined.

(** ** The covariance field is Hermitian *)

Lemma plane_swap_real img p q :
  real (plane (pointwise_covariance img) q p) =
  real (plane (pointwise_covariance img) p q).
Proof.
  apply ndarray_eq; [reflexivity|]; intros yx.
  unfold real, plane, pointwise_covariance; cbn [elem shape].
  rewrite (Cmul_conj_swap (elem img (p :: yx)) (elem img (q :: yx))).
  reflexivity.
Qed.

Lemma plane_swap_imag img p q :
  imag (plane (pointwise_covariance img) q p) =
  arr_neg (imag (plane (pointwise_covariance img) p q)).
Proof.
  apply ndarray_eq; [reflexivity|]; intros yx.
  unfold imag, arr_neg, plane, pointwise_covariance; cbn [elem shape].
  rewrite (Cmul_conj_swap (elem img (p :: yx)) (elem img (q :: yx))).
  reflexivity.
Qed.

(** C7.  At every pixel the covariance field is Hermitian in its two coil
    indices, as first formed from the products [img[p]*conj(img[q])] and
    again after every (p,q) plane has been smoothed. *)
Theorem covariance_field_hermitian
  (img : ndarray C) (smoothing p q y x : nat) :
  let Rs0 := pointwise_covariance img in
  let Rs := smooth_covariance Rs0 smoothing in
  elem Rs0 [p; q; y; x] = Cconj (elem Rs0 [q; p; y; x]) /\
  elem Rs [p; q; y; x] = Cconj (elem Rs [q; p; y; x]).
Proof.
  intros Rs0 Rs; subst Rs Rs0; split.
  - unfold pointwise_covariance; cbn [elem]; apply Cmul_conj_swap.
  - unfold smooth_covariance; cbn [elem].
    rewrite !smooth_elem, plane_swap_real, plane_swap_imag.
    rewrite uniform_filter_neg; unfold Cconj; simpl.
    apply C_eq; lra.
Qed.

(** ** Norms and normalisation *)

Lemma Cabs2_nonneg z : 0 <= Cabs2 z.
Proof. destruct z as [a b]; unfold Cabs2; simpl; nra. Qed.

Lemma sumsq_nonneg v : 0 <= sumsq v.
Proof.
  unfold sumsq; induction v as [|z v IH]; simpl; [lra|].
  pose proof (Cabs2_nonneg z); lra.
Qed.

Lemma norm_nonneg v : 0 <= norm v.
Proof. apply sqrt_pos. Qed.

Lemma norm_sqr v : norm v * norm v = sumsq v.
Proof. apply sqrt_sqrt, sumsq_nonneg. Qed.

(** The norm is [l] as soon as the squares add up to [l*l]. *)
Lemma norm_eq v l : 0 <= l -> sumsq v = l * l -> norm v = l.
Proof.
  intros Hl H; unfold norm; fold (sumsq v); rewrite H.
  now apply sqrt_square.
Qed.

Lemma sumsq_div v l :
  l <> 0 ->
  sumsq (map (fun z => Cdiv z (RtoC l)) v) = sumsq v / (l * l).
Proof.
  intros Hl; unfold sumsq; induction v as [|z v IH]; simpl.
  - field; exact Hl.
  - rewrite IH, Cdiv_real by exact Hl.
    destruct z as [a b]; unfold Cabs2; simpl; field; exact Hl.
Qed.

(** A vector divided by its non-zero norm has norm 1. *)
Lemma unit_vector_norm w : norm w <> 0 -> norm (unit_vector w) = 1.
Proof.
  intros H; apply norm_eq; [lra|].
  unfold unit_vector; rewrite sumsq_div by exact H.
  rewrite <- norm_sqr; field; exact H.
Qed.

Lemma normalize_nonzero w :
  norm w <> 0 -> normalize w = (Some (unit_vector w), Some (norm w)).
Proof.
  intros H; unfold normalize.
  destruct (Req_EM_T (norm w) 0); [contradiction|reflexivity].
Qed.

Lemma normalize_zero z w :
  sumsq (z :: w) = 0 -> normalize (z :: w) = (None, Some 0).
Proof.
  intros H.
  assert (E : norm (z :: w) = 0) by (apply norm_eq; lra).
  unfold normalize; rewrite E.
  destruct (Req_EM_T 0 0); [reflexivity|contradiction].
Qed.

(** With the squares adding up to [l*l] for a positive [l], both parts of
    every entry are divided by [l]. *)
Lemma normalize_pos w l :
  0 < l -> sumsq w = l * l ->
  normalize w = (Some (map (fun z => (Re z / l, Im z / l)) w), Some l).
Proof.
  intros Hl H.
  assert (E : norm w = l) by (apply norm_eq; lra).
  rewrite normalize_nonzero by lra.
  unfold unit_vector; rewrite E; do 2 f_equal.
  apply map_ext; intros z; apply Cdiv_real; lra.
Qed.

(** Once the vector is NaN it stays NaN, and the power with it. *)
Lemma power_loop_nan R n lam :
  power_loop R (S n) (None, lam) = (None, None).
Proof.
  simpl; unfold power_step at 1; simpl.
  induction n as [|n IH]; simpl; [reflexivity|exact IH].
Qed.

(** The loop from the [j]-th vector on, while no norm is zero. *)
Lemma power_loop_nondegenerate ncoils R k : forall j,
  (forall i, (j <= i <= j + k)%nat -> norm (iterate_product ncoils R i) <> 0) ->
  power_loop R k (normalize (iterate_product ncoils R j)) =
  (Some (unit_vector (iterate_product ncoils R (j + k))),
   Some (norm (iterate_product ncoils R (j + k)))).
Proof.
  induction k as [|k IH]; intros j H.
  - rewrite Nat.add_0_r; simpl; apply normalize_nonzero, H; lia.
  - simpl; rewrite (@normalize_nonzero (iterate_product ncoils R j))
      by (apply H; lia).
    unfold power_step; cbv beta iota delta [fst].
    change (dot R (unit_vector (iterate_product ncoils R j)))
      with (iterate_product ncoils R (S j)).
    rewrite IH by (intros i Hi; apply H; lia).
    now replace (S j + k)%nat with (j + S k)%nat by lia.
Qed.

Lemma pixel_eig_nondegenerate ncoils R niter :
  nondegenerate ncoils R niter ->
  pixel_eig ncoils R niter =
  (Some (unit_vector (iterate_product ncoils R niter)),
   Some (norm (iterate_product ncoils R niter))).
Proof.
  intros H; unfold pixel_eig.
  change (sum_axis0 ncoils R) with (iterate_product ncoils R 0).
  rewrite power_loop_nondegenerate; [reflexivity|].
  intros i Hi; apply H; lia.
Qed.

(** ** Lengths *)

Lemma vadd_length u v : length v = length u -> length (vadd u v) = length u.
Proof.
  intros H; unfold vadd; rewrite length_map, length_combine, H.
  apply Nat.min_id.
Qed.

Lemma sum_axis0_length n R :
  Forall (fun row => length row = n) R -> length (sum_axis0 n R) = n.
Proof.
  unfold sum_axis0; intros H.
  assert (G : forall acc, length acc = n ->
                          length (fold_left vadd R acc) = n).
  { induction H as [|row R Hrow _ IH]; intros acc Hacc; simpl; [exact Hacc|].
    apply IH; rewrite vadd_length; congruence. }
  apply G, repeat_length.
Qed.

Lemma dot_length R v : length (dot R v) = length R.
Proof. unfold dot; apply length_map. Qed.

Lemma local_matrix_square Rs n y x : square n (local_matrix Rs n y x).
Proof.
  unfold square, local_matrix; split.
  - now rewrite length_map, length_seq.
  - apply Forall_forall; intros row Hrow.
    apply in_map_iff in Hrow; destruct Hrow as [p [<- _]].
    now rewrite length_map, length_seq.
Qed.

Lemma iterate_product_length n R k :
  square n R -> length (iterate_product n R k) = n.
Proof.
  intros [HR Hrows]; destruct k as [|k]; simpl.
  - now apply sum_axis0_length.
  - now rewrite dot_length.
Qed.

(** ** Unit norm of the sensitivity map *)


(** ** The box filter on constant and on non-negative arrays *)

Lemma uniform_filter1d_const a sz ax c :
  (1 < sz)%nat -> (forall idx, elem a idx = c) ->
  forall idx, elem (uniform_filter1d a sz ax) idx = c.
Proof.
  intros Hsz H idx; simpl.
  rewrite (Rsum_ext _ (fun _ => c)) by (intros; apply H).
  rewrite Rsum_const; field.
  apply not_0_INR; lia.
Qed.

(** Smoothing a constant array gives the same constant, whatever the
    window and the shape. *)
Lemma uniform_filter_const a sz c :
  (forall idx, elem a idx = c) ->
  forall idx, elem (uniform_filter a sz) idx = c.
Proof.
  unfold uniform_filter; destruct (Nat.ltb_spec 1 sz) as [Hsz|]; [|auto].
  generalize (seq 0 (ndim a)); intros l; revert a.
  induction l as [|ax l IH]; intros a H; simpl; [exact H|].
  apply IH; now apply uniform_filter1d_const.
Qed.

Lemma uniform_filter1d_nonneg a sz ax :
  (forall idx, 0 <= elem a idx) ->
  forall idx, 0 <= elem (uniform_filter1d a sz ax) idx.
Proof.
  intros H idx; simpl.
  apply Rmult_le_pos.
  - apply Rsum_nonneg; intros k; apply H.
  - destruct sz as [|sz].
    + simpl; rewrite Rinv_0; lra.
    + left; apply Rinv_0_lt_compat, lt_0_INR; lia.
Qed.

Lemma uniform_filter_nonneg a sz :
  (forall idx, 0 <= elem a idx) ->
  forall idx, 0 <= elem (uniform_filter a sz) idx.
Proof.
  unfold uniform_filter; destruct (1 <? sz)%nat; [|auto].
  generalize (seq 0 (ndim a)); intros l; revert a.
  induction l as [|ax l IH]; intros a H; simpl; [exact H|].
  apply IH; now apply uniform_filter1d_nonneg.
Qed.

(** ** A single coil *)

Ltac cplx :=
  cbv [Cadd Cmul Cdiv Csub Cconj Cabs2 RtoC C0 C1 Ci Re Im fst snd].

Lemma single_coil_real_plane img :
  real (plane (pointwise_covariance img) 0 0) = magnitude_squared img.
Proof.
  apply ndarray_eq; [reflexivity|]; intros yx.
  unfold real, plane, pointwise_covariance, magnitude_squared; cbn [elem].
  destruct (elem img (0%nat :: yx)) as [a b]; cplx; lra.
Qed.

Lemma single_coil_imag_plane img yx :
  elem (imag (plane (pointwise_covariance img) 0 0)) yx = 0.
Proof.
  unfold imag, plane, pointwise_covariance; cbn [elem].
  destruct (elem img (0%nat :: yx)) as [a b]; cplx; lra.
Qed.

(** With one coil the local matrix is the 1x1 matrix holding the smoothed
    squared magnitude. *)
Lemma single_coil_local_matrix img smoothing y x :
  nth 0 (shape img) 0%nat = 1%nat ->
  smoothed_local_matrix img smoothing y x =
  [[(elem (uniform_filter (magnitude_squared img) smoothing) [y; x], 0)]].
Proof.
  intros H; unfold smoothed_local_matrix, local_matrix; rewrite H.
  cbn [seq map]; unfold smooth_covariance; cbn [elem].
  rewrite smooth_elem, single_coil_real_plane.
  rewrite (uniform_filter_const _ _ (single_coil_imag_plane img)).
  reflexivity.
Qed.

Lemma magnitude_squared_nonneg img smoothing idx :
  0 <= elem (uniform_filter (magnitude_squared img) smoothing) idx.
Proof.
  apply uniform_filter_nonneg; intros yx; simpl; apply Cabs2_nonneg.
Qed.

Lemma single_coil_norm s : 0 <= s -> norm [(s, 0)] = s.
Proof. intros H; apply norm_eq; [exact H|]; unfold sumsq; simpl; cplx; lra. Qed.

(** Every vector the loop normalises is the matrix entry itself. *)
Lemma single_coil_iterate s k :
  0 < s -> iterate_product 1 [[(s, 0)]] k = [(s, 0)].
Proof.
  intros Hs; induction k as [|k IH].
  - unfold iterate_product, sum_axis0, vadd; cbn [repeat fold_left combine map].
    cplx; f_equal; apply C_eq; lra.
  - cbn [iterate_product]; rewrite IH.
    unfold unit_vector; rewrite single_coil_norm by lra.
    unfold dot, Csum; cbn [map combine fold_left].
    cplx; f_equal; apply C_eq; field; lra.
Qed.

Lemma single_coil_nondegenerate s niter :
  0 < s -> nondegenerate 1 [[(s, 0)]] niter.
Proof.
  intros Hs k _; rewrite single_coil_iterate, single_coil_norm; lra.
Qed.

Lemma single_coil_pixel_eig s niter :
  0 < s -> pixel_eig 1 [[(s, 0)]] niter = (Some [C1], Some s).
Proof.
  intros Hs.
  rewrite (pixel_eig_nondegenerate (@single_coil_nondegenerate s niter Hs)).
  rewrite single_coil_iterate by exact Hs.
  unfold unit_vector; rewrite single_coil_norm by lra.
  cbn [map]; cplx; do 3 f_equal; apply C_eq; field; lra.
Qed.

(** ** What the returned maps hold at a pixel *)

Lemma calculate_csm_walsh_pixel img smoothing niter csm rho :
  calculate_csm_walsh img smoothing niter = Return (csm, rho) ->
  forall y x,
    let st := pixel_eig (nth 0 (shape img) 0%nat)
                        (smoothed_local_matrix img smoothing y x) niter in
    elem rho [y; x] = snd st /\
    forall c, elem csm [c; y; x] =
              match fst st with
              | Some v => Some (nth c v C0)
              | None => None
              end.
Proof.
  unfold calculate_csm_walsh.
  destruct (ndim img =? 3)%nat; [|discriminate].
  intros E; injection E as <- <-; intros y x; split; reflexivity.
Qed.

Lemma single_coil_pixel img smoothing niter y x :
  nth 0 (shape img) 0%nat = 1%nat ->
  elem (uniform_filter (magnitude_squared img) smoothing) [y; x] <> 0 ->
  pixel_eig 1 (smoothed_local_matrix img smoothing y x) niter =
  (Some [C1],
   Some (elem (uniform_filter (magnitude_squared img) smoothing) [y; x])).
Proof.
  intros H1 Hs; rewrite single_coil_local_matrix by exact H1.
  apply single_coil_pixel_eig.
  pose proof (magnitude_squared_nonneg img smoothing [y; x]); lra.
Qed.

(** C6, as the code has it.  For every single-coil 3-dimensional stack, at
    every pixel where the box-smoothed squared magnitude is not zero, the
    sensitivity is 1 and the power is that smoothed squared magnitude: the
    mean of [|img|^2] over the smoothing window, which is [|img|^2] at the
    pixel itself when the window is 1. *)
Theorem single_coil_maps (img : ndarray C) (smoothing niter y x : nat) :
  ndim img = 3%nat ->
  nth 0 (shape img) 0%nat = 1%nat ->
  elem (uniform_filter (magnitude_squared img) smoothing) [y; x] <> 0 ->
  exists csm rho,
    calculate_csm_walsh img smoothing niter = Return (csm, rho) /\
    elem csm [0%nat; y; x] = Some C1 /\
    elem rho [y; x] =
      Some (elem (uniform_filter (magnitude_squared img) smoothing) [y; x]) /\
    ((smoothing <= 1)%nat ->
     elem rho [y; x] = Some (Cabs2 (elem img [0%nat; y; x]))).
Proof.
  intros Hdim H1 Hs.
  destruct (calculate_csm_walsh_returns img smoothing niter Hdim)
    as [[csm rho] E].
  exists csm, rho; split; [exact E|].
  destruct (calculate_csm_walsh_pixel _ _ _ E y x) as [Hrho Hcsm].
  rewrite H1, single_coil_pixel in Hrho, Hcsm by assumption.
  split; [|split].
  - rewrite Hcsm; reflexivity.
  - exact Hrho.
  - intros Hbox; rewrite Hrho, uniform_filter_small by exact Hbox.
    reflexivity.
Qed.

Ltac eval_indices :=
  repeat match goal with
         | |- context [set_axis ?a (reflect_index ?n ?i) ?l] =>
             let v := eval vm_compute in (set_axis a (reflect_index n i) l) in
             change (set_axis a (reflect_index n i) l) with v
         end.

Ltac expand_window :=
  cbn [elem shape]; unfold Rsum; cbn [seq map fold_right nth]; eval_indices.

(** The window of 5 around pixel (0,0) of the one-row image [1, 0],
    reflected at the edges, covers 0, 1, 1, 0, 0. *)
Lemma one_coil_step_power :
  elem (uniform_filter (magnitude_squared Inputs.one_coil_step) 5) [0; 0]%nat
  = 2 / 5.
Proof.
  change (uniform_filter (magnitude_squared Inputs.one_coil_step) 5)
    with (uniform_filter1d
            (uniform_filter1d (magnitude_squared Inputs.one_coil_step) 5 0)
            5 1).
  unfold uniform_filter1d at 1; expand_window.
  unfold uniform_filter1d; expand_window.
  unfold magnitude_squared, Inputs.one_coil_step; cbn [elem].
  cplx; simpl INR; lra.
Qed.

Lemma single_coil_maps_witness :
  ndim Inputs.one_coil_step = 3%nat /\
  nth 0 (shape Inputs.one_coil_step) 0%nat = 1%nat /\
  elem (uniform_filter (magnitude_squared Inputs.one_coil_step) 5)
       [0; 0]%nat <> 0 /\
  exists csm rho,
    calculate_csm_walsh Inputs.one_coil_step 5 3 = Return (csm, rho) /\
    elem csm [0; 0; 0]%nat = Some C1 /\
    elem rho [0; 0]%nat =
      Some (elem (uniform_filter (magnitude_squared Inputs.one_coil_step) 5)
                 [0; 0]%nat) /\
    ((5 <= 1)%nat ->
     elem rho [0; 0]%nat =
       Some (Cabs2 (elem Inputs.one_coil_step [0; 0; 0]%nat))).
Proof.
  assert (H : elem (uniform_filter (magnitude_squared Inputs.one_coil_step) 5)
                   [0; 0]%nat <> 0)
    by (rewrite one_coil_step_power; lra).
  split; [reflexivity|]; split; [reflexivity|]; split; [exact H|].
  apply (@single_coil_maps Inputs.one_coil_step 5 3 0 0);
    [reflexivity|reflexivity|exact H].
Defined.

(** C6, as stated, fails: with the default window of 5 the power at pixel
    (0,0) of the one-row image [1, 0] is 2/5, not [|img|^2 = 1]. *)
Lemma single_coil_power_not_pointwise :
  ~ (exists csm rho,
       calculate_csm_walsh Inputs.one_coil_step 5 3 = Return (csm, rho) /\
       elem rho [0; 0]%nat =
         Some (Cabs2 (elem Inputs.one_coil_step [0; 0; 0]%nat))).
Proof.
  intros (csm & rho & E & H).
  destruct (calculate_csm_walsh_pixel _ _ _ E 0 0) as [Hrho _].
  rewrite single_coil_pixel in Hrho;
    [|reflexivity|rewrite one_coil_step_power; lra].
  rewrite Hrho, one_coil_step_power in H.
  injection H; cbn [Inputs.one_coil_step elem]; cplx; lra.
Qed.

(** ** Images that are constant over the pixels *)

(** When every coil image is constant, smoothing leaves the covariance
    field as it was formed. *)
Lemma smooth_covariance_const img (f : nat -> C) smoothing p q yx :
  (forall c idx, elem img (c :: idx) = f c) ->
  elem (smooth_covariance (pointwise_covariance img) smoothing) (p :: q :: yx)
  = Cmul (f p) (Cconj (f q)).
Proof.
  intros H; unfold smooth_covariance; cbn [elem]; rewrite smooth_elem.
  rewrite (@uniform_filter_const _ smoothing (Re (Cmul (f p) (Cconj (f q))))),
          (@uniform_filter_const _ smoothing (Im (Cmul (f p) (Cconj (f q))))).
  - reflexivity.
  - intros idx; unfold imag, plane, pointwise_covariance; cbn [elem].
    now rewrite !H.
  - intros idx; unfold real, plane, pointwise_covariance; cbn [elem].
    now rewrite !H.
Qed.

Lemma two_coil_constant_elem c idx :
  elem Inputs.two_coil_constant (c :: idx) = Inputs.two_coil_value c.
Proof. destruct c; reflexivity. Qed.

Lemma two_coil_products :
  Cmul C1 (Cconj C1) = C1 /\ Cmul C1 (Cconj Ci) = (0, -1) /\
  Cmul Ci (Cconj C1) = Ci /\ Cmul Ci (Cconj Ci) = C1.
Proof. cplx; repeat split; apply C_eq; lra. Qed.

Lemma two_coil_pointwise_matrix y x :
  local_matrix (pointwise_covariance Inputs.two_coil_constant) 2 y x =
  Inputs.covariance_2x2.
Proof.
  destruct two_coil_products as (E00 & E01 & E10 & E11).
  unfold local_matrix, pointwise_covariance; cbn [seq map elem].
  rewrite !two_coil_constant_elem; cbn [Inputs.two_coil_value].
  now rewrite E00, E01, E10, E11.
Qed.

Lemma two_coil_smoothed_matrix smoothing y x :
  smoothed_local_matrix Inputs.two_coil_constant smoothing y x =
  Inputs.covariance_2x2.
Proof.
  destruct two_coil_products as (E00 & E01 & E10 & E11).
  unfold smoothed_local_matrix, local_matrix.
  cbn [Inputs.two_coil_constant shape nth seq map].
  rewrite !(@smooth_covariance_const _ Inputs.two_coil_value smoothing _ _ _
              two_coil_constant_elem).
  cbn [Inputs.two_coil_value]; now rewrite E00, E01, E10, E11.
Qed.

(** ** The power method on [[1, -1j], [1j, 1]] *)

Ltac vec_eq := repeat (f_equal; try (apply C_eq; lra)).

Lemma covariance_2x2_sum_axis0 :
  sum_axis0 2 Inputs.covariance_2x2 = [(1, 1); (1, -1)].
Proof.
  unfold sum_axis0, vadd, Inputs.covariance_2x2.
  cbn [repeat fold_left combine map]; cplx; vec_eq.
Qed.

Lemma covariance_2x2_initial :
  normalize (sum_axis0 2 Inputs.covariance_2x2) =
  (Some Inputs.initial_vector, Some 2).
Proof.
  rewrite covariance_2x2_sum_axis0.
  rewrite (@normalize_pos _ 2);
    [|lra|unfold sumsq; cbn [map fold_right]; cplx; lra].
  cbn [map]; cplx; reflexivity.
Qed.

(** The normalised initial vector is orthogonal to both rows. *)
Lemma covariance_2x2_first_product :
  dot Inputs.covariance_2x2 Inputs.initial_vector = [C0; C0].
Proof.
  unfold dot, Csum, Inputs.covariance_2x2, Inputs.initial_vector.
  cbn [map combine fold_left]; cplx; vec_eq.
Qed.

Lemma covariance_2x2_first_step lam :
  power_step Inputs.covariance_2x2 (Some Inputs.initial_vector, lam) =
  (None, Some 0).
Proof.
  unfold power_step; cbn [fst]; rewrite covariance_2x2_first_product.
  apply normalize_zero; unfold sumsq; cbn [map fold_right]; cplx; lra.
Qed.

Lemma covariance_2x2_pixel_eig niter :
  pixel_eig 2 Inputs.covariance_2x2 (S (S niter)) = (None, None).
Proof.
  unfold pixel_eig; rewrite covariance_2x2_initial.
  cbn [power_loop]; rewrite covariance_2x2_first_step.
  apply (power_loop_nan Inputs.covariance_2x2 niter (Some 0)).
Qed.



(** ** The loop body against the specification's formulas *)

Lemma Cadd_assoc x y z : Cadd x (Cadd y z) = Cadd (Cadd x y) z.
Proof.
  destruct x, y, z; cplx; apply C_eq; lra.
Qed.

Lemma Cadd_comm x y : Cadd x y = Cadd y x.
Proof. destruct x, y; cplx; apply C_eq; lra. Qed.

Lemma Cadd_0_l x : Cadd C0 x = x.
Proof. destruct x; cplx; apply C_eq; lra. Qed.

(** Adding up from the left, as the code does, or from the right. *)
Lemma Csum_fold_right l : Csum l = fold_right Cadd C0 l.
Proof.
  unfold Csum; apply fold_symmetric.
  - apply Cadd_assoc.
  - intros y; apply Cadd_comm.
Qed.

Lemma nth_vadd : forall u v q,
  length u = length v ->
  nth q (vadd u v) C0 = Cadd (nth q u C0) (nth q v C0).
Proof.
  unfold vadd; induction u as [|a u IH]; intros [|b v] q H;
    try discriminate; simpl.
  - destruct q; now rewrite Cadd_0_l.
  - destruct q; [reflexivity|]; apply IH; simpl in H; lia.
Qed.

Lemma nth_fold_vadd q R : forall acc,
  Forall (fun row => length row = length acc) R ->
  nth q (fold_left vadd R acc) C0 =
  fold_left Cadd (map (fun row => nth q row C0) R) (nth q acc C0).
Proof.
  induction R as [|row R IH]; intros acc H; simpl; [reflexivity|].
  inversion H as [|? ? Hrow HR]; subst.
  rewrite IH.
  - now rewrite nth_vadd by congruence.
  - rewrite vadd_length by exact Hrow.
    exact HR.
Qed.

Lemma map_nth_seq {A B} (g : A -> B) (d : A) l :
  map (fun p => g (nth p l d)) (seq 0 (length l)) = map g l.
Proof.
  induction l as [|a l IH]; simpl; [reflexivity|].
  now rewrite <- seq_shift, map_map, IH.
Qed.

Lemma map_combine_seq (f : C -> C -> C) : forall u v,
  length u = length v ->
  map (fun pr => f (fst pr) (snd pr)) (combine u v) =
  map (fun q => f (nth q u C0) (nth q v C0)) (seq 0 (length u)).
Proof.
  induction u as [|a u IH]; intros [|b v] H; try discriminate; simpl;
    [reflexivity|].
  rewrite <- seq_shift, map_map, IH by (simpl in H; lia).
  reflexivity.
Qed.

(** [np.sum(R, axis=0)] is the vector of column sums. *)
Lemma sum_axis0_col_sum n R :
  square n R -> sum_axis0 n R = Spec.col_sum_vector n R.
Proof.
  intros [HR Hrows].
  apply (nth_ext _ _ C0 C0).
  - unfold Spec.col_sum_vector.
    now rewrite sum_axis0_length, length_map, length_seq.
  - intros q Hq; rewrite sum_axis0_length in Hq by exact Hrows.
    unfold sum_axis0; rewrite nth_fold_vadd
      by (now rewrite repeat_length).
    rewrite nth_repeat.
    change (fold_left Cadd ?l C0) with (Csum l); rewrite Csum_fold_right.
    unfold Spec.col_sum_vector, Spec.entry_sum.
    rewrite (nth_indep _ C0
               (fold_right Cadd C0
                  (map (fun p => Spec.entry R p 0) (seq 0 n))))
      by (now rewrite length_map, length_seq).
    rewrite (map_nth
               (fun q0 => fold_right Cadd C0
                            (map (fun p => Spec.entry R p q0) (seq 0 n)))).
    rewrite seq_nth by exact Hq; simpl Nat.add.
    unfold Spec.entry; rewrite <- HR.
    now rewrite (map_nth_seq (fun row => nth q row C0)).
Qed.

(** [np.dot(R, v)] is the matrix-vector product. *)
Lemma dot_mat_vec n R v :
  square n R -> length v = n -> dot R v = Spec.mat_vec n R v.
Proof.
  intros [HR Hrows] Hv.
  set (G := fun row : list C =>
              Spec.entry_sum (fun q => Cmul (nth q row C0) (nth q v C0)) n).
  transitivity (map G R).
  - apply map_ext_in; intros row Hrow.
    rewrite Forall_forall in Hrows; specialize (Hrows row Hrow).
    rewrite Csum_fold_right, (map_combine_seq Cmul) by congruence.
    now rewrite Hrows.
  - rewrite <- (map_nth_seq G [] R), HR; reflexivity.
Qed.

(** [np.linalg.norm(w)] is the Euclidean norm. *)
Lemma norm_euclidean n w :
  length w = n -> Spec.euclidean_norm n w = norm w.
Proof.
  intros <-.
  assert (E : sumsq w =
              Rsum (fun q => Re (nth q w C0) * Re (nth q w C0) +
                             Im (nth q w C0) * Im (nth q w C0)) (length w)).
  { unfold sumsq, Rsum.
    now rewrite (map_nth_seq (fun z => Re z * Re z + Im z * Im z) C0 w). }
  unfold Spec.euclidean_norm; rewrite <- E; reflexivity.
Qed.

(** [w/lam] divides every entry by the norm, when that is not zero. *)
Lemma unit_vector_divide n w :
  length w = n -> norm w <> 0 -> Spec.divide n w (norm w) = unit_vector w.
Proof.
  intros <- H; unfold Spec.divide, unit_vector.
  rewrite (map_nth_seq (fun z => (Re z / norm w, Im z / norm w)) C0 w).
  apply map_ext; intros z; symmetry; apply Cdiv_real, H.
Qed.

(** While no norm is zero, the specification's method started from the
    column sums goes through the vectors and norms of the code. *)
Lemma power_method_iterate n R k :
  square n R ->
  (forall j, (j <= k)%nat -> norm (iterate_product n R j) <> 0) ->
  Spec.power_method Spec.col_sum_vector n R k =
  (unit_vector (iterate_product n R k), norm (iterate_product n R k)).
Proof.
  intros HR; induction k as [|k IH]; intros H.
  - unfold Spec.power_method; cbv zeta.
    change (Nat.iter 0 ?f ?x) with x; cbn [iterate_product].
    rewrite <- sum_axis0_col_sum by exact HR.
    pose proof (@sum_axis0_length n R (proj2 HR)) as L.
    rewrite (norm_euclidean _ L), (unit_vector_divide _ L); [reflexivity|].
    apply (H 0%nat); lia.
  - unfold Spec.power_method in IH |- *; cbv zeta in IH |- *.
    rewrite Nat.iter_succ, IH by (intros j Hj; apply H; lia).
    unfold Spec.iteration; cbn [fst iterate_product].
    assert (L : length (unit_vector (iterate_product n R k)) = n).
    { unfold unit_vector; rewrite length_map.
      now apply iterate_product_length. }
    rewrite <- (@dot_mat_vec n R) by assumption.
    change (dot R (unit_vector (iterate_product n R k)))
      with (iterate_product n R (S k)).
    pose proof (@iterate_product_length n R (S k) HR) as L'.
    rewrite (norm_euclidean _ L'), (unit_vector_divide _ L'); [reflexivity|].
    apply H; lia.
Qed.

(** At a pixel where no norm is zero, the per-pixel computation of the
    code is the power method of the specification started from the
    vector of column sums. *)
Lemma pixel_eig_power_method n R niter :
  square n R -> nondegenerate n R niter ->
  pixel_eig n R niter =
  (Some (fst (Spec.power_method Spec.col_sum_vector n R niter)),
   Some (snd (Spec.power_method Spec.col_sum_vector n R niter))).
Proof.
  intros HR H.
  rewrite (pixel_eig_nondegenerate H), (power_method_iterate HR H).
  reflexivity.
Qed.

(** For a Hermitian matrix the column sums are the conjugates of the row
    sums, so the two starting vectors differ unless the sums are real. *)
Lemma entry_sum_conj f n :
  Spec.entry_sum (fun p => Cconj (f p)) n = Cconj (Spec.entry_sum f n).
Proof.
  unfold Spec.entry_sum; induction (seq 0 n) as [|p l IH]; simpl.
  - cplx; apply C_eq; lra.
  - rewrite IH; destruct (f p), (fold_right Cadd C0 (map f l)).
    cplx; apply C_eq; lra.
Qed.

Remark col_sum_conj_row_sum n R :
  (forall p q, Spec.entry R p q = Cconj (Spec.entry R q p)) ->
  Spec.col_sum_vector n R = map Cconj (Spec.row_sum_vector n R).
Proof.
  intros H; unfold Spec.col_sum_vector, Spec.row_sum_vector.
  rewrite map_map; apply map_ext; intros q.
  rewrite <- entry_sum_conj; f_equal.
  apply functional_extensionality; intros p; apply H.
Qed.

(** The power method started from the row sums, on [[1,-1j],[1j,1]]. *)

Lemma covariance_2x2_row_sum :
  Spec.row_sum_vector 2 Inputs.covariance_2x2 = [(1, -1); (1, 1)].
Proof.
  unfold Spec.row_sum_vector, Spec.entry_sum, Spec.entry,
    Inputs.covariance_2x2.
  cbn [seq map fold_right nth]; cplx.
  apply (f_equal2 cons); [apply C_eq; lra|].
  apply (f_equal2 cons); [apply C_eq; lra|reflexivity].
Qed.

Lemma row_sum_normalized :
  Spec.euclidean_norm 2 [(1, -1); (1, 1)] = 2 /\
  Spec.divide 2 [(1, -1); (1, 1)] 2 = Inputs.row_sum_unit.
Proof.
  split.
  - unfold Spec.euclidean_norm, Rsum; cbn [seq map fold_right nth]; cplx.
    replace (1 * 1 + -1 * -1 + (1 * 1 + 1 * 1 + 0)) with (2 * 2) by lra.
    apply sqrt_square; lra.
  - unfold Spec.divide, Inputs.row_sum_unit; cbn [seq map nth]; cplx.
    reflexivity.
Qed.

Lemma covariance_2x2_row_sum_product :
  Spec.mat_vec 2 Inputs.covariance_2x2 Inputs.row_sum_unit =
  [(1, -1); (1, 1)].
Proof.
  unfold Spec.mat_vec, Spec.entry_sum, Spec.entry, Inputs.covariance_2x2,
    Inputs.row_sum_unit.
  cbn [seq map fold_right nth]; cplx.
  apply (f_equal2 cons); [apply C_eq; lra|].
  apply (f_equal2 cons); [apply C_eq; lra|reflexivity].
Qed.

(** Started from the row sums the method sits on the eigenvector from the
    first step on, with power 2. *)
Lemma covariance_2x2_row_sum_method niter :
  Spec.power_method Spec.row_sum_vector 2 Inputs.covariance_2x2 niter =
  (Inputs.row_sum_unit, 2).
Proof.
  destruct row_sum_normalized as [En Ed].
  unfold Spec.power_method; cbv zeta.
  rewrite covariance_2x2_row_sum, En, Ed.
  induction niter as [|k IH]; [reflexivity|].
  rewrite Nat.iter_succ, IH; unfold Spec.iteration; cbn [fst].
  now rewrite covariance_2x2_row_sum_product, En, Ed.
Qed.

(** C5.  On the 2-coil 4x4 stack with coil 0 equal to [1+0j] and coil 1
    to [0+1j], with smoothing 5 and 3 iterations, the method the claim
    words, started from the row sums of the local matrix
    [[1,-1j],[1j,1]], ends at every pixel with the power 2 and the vector
    [(1-1j)/2, (1+1j)/2], which the matrix maps to its double.  The code
    starts instead from the sum over axis 0, which is the vector of
    column sums and differs from the row sums here; its first product is
    the zero vector, and both returned maps hold NaN at every pixel. *)
Theorem csm_walsh_row_sum_divergence :
  exists csm rho,
    calculate_csm_walsh Inputs.two_coil_constant 5 3 = Return (csm, rho) /\
    forall y x,
      let Rl := smoothed_local_matrix Inputs.two_coil_constant 5 y x in
      Spec.power_method Spec.row_sum_vector 2 Rl 3
        = (Inputs.row_sum_unit, 2) /\
      Spec.mat_vec 2 Rl Inputs.row_sum_unit
        = map (Cmul (RtoC 2)) Inputs.row_sum_unit /\
      sum_axis0 2 Rl = Spec.col_sum_vector 2 Rl /\
      Spec.col_sum_vector 2 Rl <> Spec.row_sum_vector 2 Rl /\
      dot Rl (unit_vector (sum_axis0 2 Rl)) = [C0; C0] /\
      elem rho [y; x] = None /\
      forall c, elem csm [c; y; x] = None.
Proof.
  destruct (@calculate_csm_walsh_returns Inputs.two_coil_constant 5 3 eq_refl)
    as [[csm rho] E].
  exists csm, rho; split; [exact E|]; intros y x Rl; subst Rl.
  destruct (calculate_csm_walsh_pixel _ _ _ E y x) as [Hrho Hcsm].
  rewrite two_coil_smoothed_matrix in *.
  cbn [Inputs.two_coil_constant shape nth] in Hrho, Hcsm.
  rewrite (covariance_2x2_pixel_eig 1) in Hrho, Hcsm.
  assert (Hsq : square 2 Inputs.covariance_2x2)
    by (split; [reflexivity|repeat constructor]).
  split; [apply covariance_2x2_row_sum_method|].
  split.
  { rewrite covariance_2x2_row_sum_product.
    unfold Inputs.row_sum_unit; cbn [map]; cplx.
    apply (f_equal2 cons); [apply C_eq; lra|].
    apply (f_equal2 cons); [apply C_eq; lra|reflexivity]. }
  split; [apply sum_axis0_col_sum, Hsq|].
  split.
  { rewrite <- sum_axis0_col_sum by exact Hsq.
    rewrite covariance_2x2_sum_axis0, covariance_2x2_row_sum.
    intros H; injection H; intros; lra. }
  split.
  { assert (Hn : norm (sum_axis0 2 Inputs.covariance_2x2) <> 0).
    { rewrite covariance_2x2_sum_axis0, (@norm_eq _ 2);
        [lra|lra|unfold sumsq; cbn [map fold_right]; cplx; lra]. }
    pose proof (normalize_nonzero _ Hn) as Hi.
    rewrite covariance_2x2_initial in Hi.
    assert (Hv : unit_vector (sum_axis0 2 Inputs.covariance_2x2)
                 = Inputs.initial_vector) by congruence.
    rewrite Hv; apply covariance_2x2_first_product. }
  split; [exact Hrho|exact Hcsm].
Qed.

(** ** calculate_prewhitening *)

Lemma reshape_coil_samples_ncols noise N :
  reshape_coil_samples noise = Return N ->
  ncols N = samples_per_coil noise /\ nrows N = nth 0 (shape noise) 0%nat.
Proof.
  unfold reshape_coil_samples, samples_per_coil.
  destruct (shape noise) as [|n0 rest] eqn:Hs; [discriminate|].
  destruct (n0 =? 0)%nat; [discriminate|].
  intros E; injection E as <-; split; reflexivity.
Qed.

(** With one sample per coil there is a coil axis and it is not empty. *)
Lemma reshape_coil_samples_returns noise :
  (1 <= samples_per_coil noise)%nat ->
  exists N, reshape_coil_samples noise = Return N.
Proof.
  unfold reshape_coil_samples, samples_per_coil.
  destruct (shape noise) as [|n0 rest] eqn:Hs; simpl; [lia|].
  destruct n0 as [|n0]; simpl; [lia|]; eauto.
Qed.

(** The matrix the code factors is the sample covariance. *)
Lemma covariance_matrix_spec N :
  scale_left (1 / (INR (ncols N) - 1)) (matmul N (mat_H N)) =
  Spec.sample_covariance N.
Proof.
  apply ndarray_eq; [reflexivity|].
  intros [|i [|j [|k idx]]]; try reflexivity.
  unfold scale_left, matmul, mat_H, Spec.sample_covariance, Spec.entry_sum.
  cbn [elem]; now rewrite Csum_fold_right.
Qed.

Lemma Cmul_scale_twice z a b :
  Cmul (Cmul z (RtoC a)) (RtoC b) = Cmul z (RtoC (a * b)).
Proof. destruct z; cplx; apply C_eq; ring. Qed.

Lemma scale_right_twice W a b :
  scale_right (scale_right W a) b =
  mkArr (shape W)
        (fun idx => match idx with
                    | [_; _] => Cmul (elem W idx) (RtoC (a * b))
                    | _ => C0
                    end).
Proof.
  apply ndarray_eq; [reflexivity|].
  intros [|i [|j [|k idx]]]; try reflexivity.
  unfold scale_right; cbn [elem]; apply Cmul_scale_twice.
Qed.

Lemma scale_right_sqrt W s :
  scale_right (scale_right W (sqrt 2)) (sqrt s) =
  scale_left (sqrt s) (scale_right (scale_right W (sqrt 2)) (sqrt 1)).
Proof.
  apply ndarray_eq; [reflexivity|].
  intros [|i [|j [|k idx]]]; try reflexivity.
  unfold scale_left, scale_right; cbn [elem]; rewrite sqrt_1.
  destruct (elem W [i; j]); cplx; apply C_eq; ring.
Qed.

(** ** The reshape, entry by entry *)

Lemma indices_length dims :
  length (Spec.indices dims) = fold_right Nat.mul 1%nat dims.
Proof.
  induction dims as [|d ds IH]; [reflexivity|].
  cbn [Spec.indices fold_right].
  set (P := fold_right Nat.mul 1%nat ds) in *.
  assert (G : forall s,
             length (flat_map (fun i => map (cons i) (Spec.indices ds))
                              (seq s d)) = (d * P)%nat).
  { induction d as [|d IHd]; intros s; [reflexivity|].
    cbn [seq flat_map]; rewrite length_app, length_map, IH, IHd.
    reflexivity. }
  apply G.
Qed.

(** In a list made of blocks of [M] entries, entry [c * M + m] is entry
    [m] of block [c]. *)
Lemma nth_flat_map_block {A} (f : nat -> list A) (M : nat) (d0 : A) :
  (forall i, length (f i) = M) ->
  forall d s c m, (c < d)%nat -> (m < M)%nat ->
    nth (c * M + m) (flat_map f (seq s d)) d0 = nth m (f (s + c)%nat) d0.
Proof.
  intros Hf; induction d as [|d IH]; intros s c m Hc Hm; [lia|].
  cbn [seq flat_map]; destruct c as [|c].
  - rewrite app_nth1 by (rewrite Hf; simpl; lia).
    now rewrite Nat.add_0_r.
  - rewrite app_nth2 by (rewrite Hf; simpl; lia).
    rewrite Hf.
    replace (S c * M + m - M)%nat with (c * M + m)%nat by (simpl; lia).
    rewrite IH by lia.
    now replace (S s + c)%nat with (s + S c)%nat by lia.
Qed.

(** The multi-index number [m] in row-major order is the one the
    quotients and remainders give. *)
Lemma indices_nth dims : forall m,
  (m < fold_right Nat.mul 1 dims)%nat ->
  nth m (Spec.indices dims) [] = unravel dims m.
Proof.
  induction dims as [|d ds IH]; intros m Hm.
  - simpl in Hm; destruct m; [reflexivity|lia].
  - cbn [fold_right] in Hm; cbn [Spec.indices unravel].
    set (P := fold_right Nat.mul 1%nat ds) in *.
    assert (HP : P <> 0%nat) by (intros E; rewrite E in Hm; lia).
    assert (Hq : (m / P < d)%nat)
      by (apply Nat.Div0.div_lt_upper_bound; lia).
    assert (Hr : (m mod P < P)%nat) by (apply Nat.mod_upper_bound, HP).
    rewrite (Nat.div_mod_eq m P) at 1.
    rewrite (Nat.mul_comm P).
    rewrite (@nth_flat_map_block _ (fun i => map (cons i) (Spec.indices ds))
               P [] ) by
      (try (intros i; rewrite length_map; apply indices_length); assumption).
    cbn [Nat.add].
    rewrite (nth_indep _ [] (m / P :: []))%nat
      by (rewrite length_map, indices_length; exact Hr).
    rewrite (map_nth (cons (m / P)%nat)), IH by exact Hr.
    reflexivity.
Qed.

(** Inside the array, the reshape of the specification and the one of the
    code hold the same entries. *)
Lemma coil_samples_entry noise n0 rest c m :
  shape noise = n0 :: rest -> n0 <> 0%nat ->
  (c < n0)%nat -> (m < fold_right Nat.mul 1 rest)%nat ->
  elem (Spec.coil_samples noise) [c; m] = elem noise (c :: unravel rest m).
Proof.
  intros Hs Hn Hc Hm; unfold Spec.coil_samples, size; cbn [elem].
  rewrite Hs; cbn [nth fold_right Spec.indices].
  rewrite (Nat.mul_comm n0), Nat.div_mul by exact Hn.
  rewrite (@nth_flat_map_block _ (fun i => map (cons i) (Spec.indices rest))
             (fold_right Nat.mul 1%nat rest) [])
    by (try (intros i; rewrite length_map; apply indices_length);
        assumption).
  cbn [Nat.add].
  rewrite (nth_indep _ [] (c :: []))
    by (rewrite length_map, indices_length; exact Hm).
  now rewrite (map_nth (cons c)), indices_nth by exact Hm.
Qed.

Lemma entry_sum_ext f g n :
  (forall k, (k < n)%nat -> f k = g k) ->
  Spec.entry_sum f n = Spec.entry_sum g n.
Proof.
  unfold Spec.entry_sum; intros H.
  assert (E : map f (seq 0 n) = map g (seq 0 n)).
  { apply map_ext_in; intros k Hk; apply in_seq in Hk; apply H; lia. }
  now rewrite E.
Qed.

Section PrewhiteningProperties.

Variable linalg_cholesky : ndarray C -> result (ndarray C).
Variable linalg_inv : ndarray C -> result (ndarray C).

Let prewhitening := calculate_prewhitening linalg_cholesky linalg_inv.

(** The function, once the division by [M - 1] is known to go through. *)
Lemma calculate_prewhitening_unfold noise s N :
  reshape_coil_samples noise = Return N ->
  ncols N <> 1%nat ->
  prewhitening noise s =
  (L <- linalg_cholesky (Spec.sample_covariance N) ;;
   W <- linalg_inv L ;;
   Return (scale_right (scale_right W (sqrt 2)) (sqrt s))).
Proof.
  intros E HM; unfold prewhitening, calculate_prewhitening.
  rewrite E; cbn [bind].
  destruct (Req_EM_T (INR (ncols N) - 1) 0) as [H|_].
  - exfalso; apply HM, INR_eq; simpl; lra.
  - now rewrite covariance_matrix_spec.
Qed.

(** The scale factor only multiplies the result. *)
Lemma calculate_prewhitening_scale noise s :
  prewhitening noise s =
  result_map (scale_left (sqrt s)) (prewhitening noise 1).
Proof.
  unfold prewhitening, calculate_prewhitening, result_map.
  destruct (reshape_coil_samples noise) as [e|N]; cbn [bind]; [reflexivity|].
  destruct (Req_EM_T (INR (ncols N) - 1) 0); [reflexivity|].
  destruct (linalg_cholesky _) as [e|L]; cbn [bind]; [reflexivity|].
  destruct (linalg_inv L) as [e|W]; cbn [bind]; [reflexivity|].
  now rewrite scale_right_sqrt.
Qed.


(** With one sample per coil the division by [M - 1] raises. *)
Lemma one_sample_division noise s :
  samples_per_coil noise = 1%nat ->
  prewhitening noise s = Raise ZeroDivisionError.
Proof.
  intros HM.
  destruct (reshape_coil_samples_returns noise) as [N E]; [lia|].
  destruct (reshape_coil_samples_ncols _ E) as [Hc _].
  unfold prewhitening, calculate_prewhitening; rewrite E; cbn [bind].
  rewrite Hc, HM; simpl INR.
  destruct (Req_EM_T (1 - 1) 0) as [_|H]; [reflexivity|].
  exfalso; apply H; lra.
Qed.

(** C4, as the code has it.  For every noise array with exactly one sample
    per coil the function raises [ZeroDivisionError], at the division by
    [M - 1]: no covariance is formed, no factorization is tried and no
    matrix is returned. *)
Theorem prewhitening_one_sample (noise : ndarray C) (scale_factor : R) :
  samples_per_coil noise = 1%nat ->
  calculate_prewhitening linalg_cholesky linalg_inv noise scale_factor =
  Raise ZeroDivisionError.
Proof. apply one_sample_division. Qed.

(** C10.  Whenever the function succeeds with scale factor 1, it succeeds
    with every scale factor [s > 0], and the matrix it returns is
    [sqrt s] times the one for scale factor 1. *)
Theorem prewhitening_scale_factor (noise W1 : ndarray C) (s : R) :
  0 < s ->
  calculate_prewhitening linalg_cholesky linalg_inv noise 1 = Return W1 ->
  calculate_prewhitening linalg_cholesky linalg_inv noise s =
  Return (scale_left (sqrt s) W1).
Proof.
  intros _ H1; fold prewhitening in H1 |- *.
  now rewrite calculate_prewhitening_scale, H1.
Qed.

End PrewhiteningProperties.

(** ** Running calculate_prewhitening on one coil *)

Lemma cholesky_1x1 A :
  nrows A = 1%nat -> 0 < Re (elem A [0; 0]%nat) ->
  exists L, Linalg.cholesky A = Return L /\
            nrows L = 1%nat /\
            elem L [0; 0]%nat = RtoC (sqrt (Re (elem A [0; 0]%nat) - 0)).
Proof.
  intros Hn Hpos; unfold Linalg.cholesky; rewrite Hn.
  cbn [seq fold_left]; unfold Linalg.cholesky_column; cbn [bind].
  unfold Rsum; cbn [seq map fold_right].
  destruct (Rlt_dec 0 (Re (elem A [0; 0]%nat) - 0)) as [_|H];
    [|exfalso; apply H; lra].
  eexists; split; [reflexivity|]; split; [exact Hn|reflexivity].
Qed.

Lemma inv_1x1 L :
  nrows L = 1%nat -> Re (elem L [0; 0]%nat) <> 0 ->
  exists W, Linalg.inv L = Return W /\
            elem W [0; 0]%nat = Cdiv C1 (elem L [0; 0]%nat).
Proof.
  intros Hn Hpiv; unfold Linalg.inv; rewrite Hn.
  cbn [seq fold_left]; unfold Linalg.gauss_jordan_column.
  cbn [bind fst snd Nat.sub seq find]; unfold Linalg.Cis_zero.
  destruct (Req_EM_T (Re (elem L [0; 0]%nat)) 0); [contradiction|].
  cbn [negb bind]; eexists; split; reflexivity.
Qed.

Lemma reshape_two_samples :
  reshape_coil_samples Inputs.noise_two_samples =
  Return (mkArr [1; 2]%nat
                (fun idx => match idx with
                            | [c; m] => elem Inputs.noise_two_samples
                                          (c :: unravel [2%nat] m)
                            | _ => C0
                            end)).
Proof. reflexivity. Qed.

(** The sample covariance of the two samples 1 and [1j] is 2. *)
Lemma two_samples_covariance N :
  reshape_coil_samples Inputs.noise_two_samples = Return N ->
  nrows (Spec.sample_covariance N) = 1%nat /\
  elem (Spec.sample_covariance N) [0; 0]%nat = (2, 0).
Proof.
  rewrite reshape_two_samples; intros E; injection E as <-.
  split; [reflexivity|].
  unfold Spec.sample_covariance, Spec.entry_sum, ncols, nrows.
  cbn [shape nth elem seq map fold_right Nat.divmod fst].
  simpl INR; cplx.
  apply C_eq; field.
Qed.

(** The covariance 2 has Cholesky factor [sqrt 2], whose inverse times
    [sqrt 2] is 1: the whitening matrix is [sqrt s]. *)
Lemma two_samples_prewhitening s :
  exists W,
    calculate_prewhitening Linalg.cholesky Linalg.inv
                           Inputs.noise_two_samples s = Return W /\
    elem W [0; 0]%nat = RtoC (sqrt s).
Proof.
  destruct (reshape_coil_samples_returns Inputs.noise_two_samples)
    as [N E]; [vm_compute; lia|].
  destruct (reshape_coil_samples_ncols _ E) as [Hc _].
  rewrite (@calculate_prewhitening_unfold Linalg.cholesky Linalg.inv
             Inputs.noise_two_samples s N E)
    by (rewrite Hc; vm_compute; lia).
  destruct (two_samples_covariance E) as [Hn H00].
  destruct (@cholesky_1x1 (Spec.sample_covariance N) Hn)
    as (L & EL & HL & HL00).
  { rewrite H00; cplx; lra. }
  assert (Hs : 0 < sqrt (2 - 0)) by (apply sqrt_lt_R0; lra).
  rewrite EL; cbn [bind].
  destruct (@inv_1x1 L HL) as (W & EW & HW).
  { rewrite HL00, H00; cplx; lra. }
  rewrite EW; cbn [bind]; eexists; split; [reflexivity|].
  unfold scale_right; cbn [elem]; rewrite HW, HL00, H00.
  assert (H2 : sqrt (2 - 0) * sqrt (2 - 0) = 2) by (rewrite sqrt_sqrt; lra).
  cplx; revert Hs H2; generalize (sqrt (2 - 0)); intros t Hs H2.
  replace (sqrt 2) with t
    by (apply (Rsqr_inj t (sqrt 2));
        [lra | apply sqrt_pos
        | unfold Rsqr; rewrite H2, sqrt_sqrt; lra]).
  replace (t * t + 0 * 0) with 2 by lra.
  apply C_eq; [|field].
  transitivity (t * t / 2 * sqrt s); [field|rewrite H2; field].
Qed.

Lemma prewhitening_one_sample_witness :
  samples_per_coil Inputs.noise_one_sample = 1%nat /\
  calculate_prewhitening Linalg.cholesky Linalg.inv
                         Inputs.noise_one_sample 1 =
  Raise ZeroDivisionError.
Proof.
  split; [reflexivity|].
  apply (@prewhitening_one_sample Linalg.cholesky Linalg.inv
           Inputs.noise_one_sample 1); reflexivity.
Defined.

(** C4, as stated, fails: with two coils of one sample each the error is
    not the [LinAlgError] of a matrix that is not positive definite. *)
Lemma one_sample_error_is_not_linalg :
  calculate_prewhitening Linalg.cholesky Linalg.inv
                         Inputs.noise_one_sample 1 <>
  Raise LinAlgError.
Proof.
  rewrite (@one_sample_division Linalg.cholesky Linalg.inv
             Inputs.noise_one_sample 1 eq_refl).
  discriminate.
Qed.

Lemma prewhitening_scale_factor_witness :
  exists W1,
    0 < 4 /\
    calculate_prewhitening Linalg.cholesky Linalg.inv
                           Inputs.noise_two_samples 1 = Return W1 /\
    calculate_prewhitening Linalg.cholesky Linalg.inv
                           Inputs.noise_two_samples 4 =
    Return (scale_left (sqrt 4) W1).
Proof.
  destruct (two_samples_prewhitening 1) as (W1 & E & _).
  exists W1; split; [lra|]; split; [exact E|].
  apply (@prewhitening_scale_factor Linalg.cholesky Linalg.inv
           Inputs.noise_two_samples W1 4); [lra|exact E].
Defined.

(** * Further properties *)

(** ** Row-major positions *)

Lemma ravel_lt dims idx :
  in_range dims idx -> (ravel dims idx < fold_right Nat.mul 1 dims)%nat.
Proof.
  unfold in_range; intros H; induction H as [|i d rest ds Hi _ IH]; simpl.
  - lia.
  - nia.
Qed.

Lemma unravel_ravel dims idx :
  in_range dims idx -> unravel dims (ravel dims idx) = idx.
Proof.
  unfold in_range; intros H; induction H as [|i d rest ds Hi Hr IH]; simpl.
  - reflexivity.
  - pose proof (ravel_lt Hr) as Hlt.
    set (s := fold_right Nat.mul 1%nat ds) in *.
    assert (Hs : s <> 0%nat) by lia.
    rewrite Nat.div_add_l, Nat.div_small, Nat.add_0_r by assumption.
    rewrite Nat.add_comm, Nat.Div0.mod_add, Nat.mod_small by assumption.
    now rewrite IH.
Qed.

Lemma size_cons {A} (a : ndarray A) n0 rest :
  shape a = n0 :: rest -> size a = (n0 * fold_right Nat.mul 1 rest)%nat.
Proof. unfold size; intros ->; reflexivity. Qed.

(** What reshaping to (coil, samples) gives on an array with at least one
    coil. *)
Lemma reshape_coil_samples_shape data n0 rest :
  shape data = n0 :: rest -> n0 <> 0%nat ->
  reshape_coil_samples data =
  Return (mkArr [n0; fold_right Nat.mul 1%nat rest]
                (fun idx => match idx with
                            | [c; m] => elem data (c :: unravel rest m)
                            | _ => C0
                            end)).
Proof.
  intros Hs Hn; unfold reshape_coil_samples; rewrite Hs.
  destruct (Nat.eqb_spec n0 0); [contradiction|].
  rewrite (@size_cons _ data n0 rest Hs), Nat.mul_comm, Nat.div_mul
    by exact Hn.
  reflexivity.
Qed.

(** ** apply_prewhitening multiplies along the coil axis *)

Lemma apply_prewhitening_entries data dmtx n0 rest :
  shape data = n0 :: rest -> n0 <> 0%nat -> shape dmtx = [n0; n0] ->
  exists out,
    apply_prewhitening data dmtx = inr out /\
    shape out = shape data /\
    forall c ridx,
      (c < n0)%nat -> in_range rest ridx ->
      elem out (c :: ridx) =
      Csum (map (fun k => Cmul (elem dmtx [c; k]) (elem data (k :: ridx)))
                (seq 0 n0)).
Proof.
  intros Hs Hn Hd; unfold apply_prewhitening, asmatrix; rewrite Hd.
  rewrite (@reshape_coil_samples_shape data n0 rest Hs Hn).
  unfold matmul, nrows, ncols; rewrite Hd; cbn [shape nth].
  rewrite Nat.eqb_refl, (@size_cons _ data n0 rest Hs), Nat.eqb_refl.
  eexists; split; [reflexivity|]; split; [reflexivity|].
  intros c ridx Hc Hr; cbn [elem]; rewrite Hs; cbn [ravel].
  pose proof (ravel_lt Hr) as Hlt.
  set (M := fold_right Nat.mul 1%nat rest) in *.
  assert (HM : M <> 0%nat) by lia.
  rewrite Nat.div_add_l, Nat.div_small, Nat.add_0_r by assumption.
  rewrite Nat.add_comm, Nat.Div0.mod_add, Nat.mod_small by assumption.
  now rewrite (unravel_ravel Hr).
Qed.

(** X1.  For data with a non-empty coil axis of length [n0] and an
    [n0] by [n0] matrix, apply_prewhitening returns an array of the shape
    of the data whose entry at coil [c] and any position of the remaining
    axes is the sum over [k] of [dmtx[c,k] * data[k, position]]. *)
Theorem apply_prewhitening_coil_product
  (data dmtx : ndarray C) (n0 : nat) (rest : list nat) :
  shape data = n0 :: rest -> n0 <> 0%nat -> shape dmtx = [n0; n0] ->
  exists out,
    apply_prewhitening data dmtx = inr out /\
    shape out = shape data /\
    forall c ridx,
      (c < n0)%nat -> in_range rest ridx ->
      elem out (c :: ridx) =
      Csum (map (fun k => Cmul (elem dmtx [c; k]) (elem data (k :: ridx)))
                (seq 0 n0)).
Proof. apply apply_prewhitening_entries. Qed.

Lemma apply_prewhitening_coil_product_witness :
  shape Inputs.two_coil_constant = [2; 4; 4]%nat /\
  2%nat <> 0%nat /\
  shape (identity_matrix 2) = [2; 2]%nat /\
  exists out,
    apply_prewhitening Inputs.two_coil_constant (identity_matrix 2)
      = inr out /\
    shape out = shape Inputs.two_coil_constant /\
    forall c ridx,
      (c < 2)%nat -> in_range [4; 4]%nat ridx ->
      elem out (c :: ridx) =
      Csum (map (fun k => Cmul (elem (identity_matrix 2) [c; k])
                               (elem Inputs.two_coil_constant (k :: ridx)))
                (seq 0 2)).
Proof.
  split; [reflexivity|]; split; [discriminate|]; split; [reflexivity|].
  apply (@apply_prewhitening_coil_product Inputs.two_coil_constant
           (identity_matrix 2) 2 [4; 4]%nat);
    [reflexivity|discriminate|reflexivity].
Defined.

(** ** Finite sums of complex numbers *)

Lemma Csum_sumL {A} (f : A -> C) l : Csum (map f l) = sumL f l.
Proof. apply Csum_fold_right. Qed.

Lemma sumL_ext {A} (f g : A -> C) l :
  (forall a, In a l -> f a = g a) -> sumL f l = sumL g l.
Proof.
  intros H; unfold sumL; f_equal; now apply map_ext_in.
Qed.

Lemma Cmul_0_r z : Cmul z C0 = C0.
Proof. destruct z; cplx; apply C_eq; lra. Qed.

Lemma Cmul_0_l z : Cmul C0 z = C0.
Proof. destruct z; cplx; apply C_eq; lra. Qed.

Lemma Cmul_1_l z : Cmul C1 z = z.
Proof. destruct z; cplx; apply C_eq; lra. Qed.

Lemma Cmul_add_distr_l z a b :
  Cmul z (Cadd a b) = Cadd (Cmul z a) (Cmul z b).
Proof. destruct z, a, b; cplx; apply C_eq; lra. Qed.

Lemma Cmul_add_distr_r z a b :
  Cmul (Cadd a b) z = Cadd (Cmul a z) (Cmul b z).
Proof. destruct z, a, b; cplx; apply C_eq; lra. Qed.

Lemma Cmul_assoc a b c : Cmul a (Cmul b c) = Cmul (Cmul a b) c.
Proof. destruct a, b, c; cplx; apply C_eq; lra. Qed.

Lemma Cmul_comm a b : Cmul a b = Cmul b a.
Proof. destruct a, b; cplx; apply C_eq; lra. Qed.

Lemma Cadd_0_r x : Cadd x C0 = x.
Proof. destruct x; cplx; apply C_eq; lra. Qed.

Lemma sumL_scale_l {A} z (f : A -> C) l :
  sumL (fun a => Cmul z (f a)) l = Cmul z (sumL f l).
Proof.
  unfold sumL; induction l as [|a l IH]; simpl.
  - now rewrite Cmul_0_r.
  - now rewrite IH, Cmul_add_distr_l.
Qed.

Lemma sumL_scale_r {A} z (f : A -> C) l :
  sumL (fun a => Cmul (f a) z) l = Cmul (sumL f l) z.
Proof.
  unfold sumL; induction l as [|a l IH]; simpl.
  - now rewrite Cmul_0_l.
  - now rewrite IH, Cmul_add_distr_r.
Qed.

Lemma sumL_add {A} (f g : A -> C) l :
  sumL (fun a => Cadd (f a) (g a)) l = Cadd (sumL f l) (sumL g l).
Proof.
  unfold sumL; induction l as [|a l IH]; simpl.
  - now rewrite Cadd_0_l.
  - rewrite IH, !Cadd_assoc; f_equal.
    rewrite <- !Cadd_assoc; f_equal; apply Cadd_comm.
Qed.

Lemma sumL_zero {A} (l : list A) : sumL (fun _ => C0) l = C0.
Proof.
  unfold sumL; induction l as [|a l IH]; simpl; [reflexivity|].
  now rewrite IH, Cadd_0_l.
Qed.

(** The order of two nested sums does not matter. *)
Lemma sumL_swap {A B} (F : A -> B -> C) l1 l2 :
  sumL (fun a => sumL (F a) l2) l1 =
  sumL (fun b => sumL (fun a => F a b) l1) l2.
Proof.
  induction l1 as [|a l1 IH].
  - transitivity (sumL (fun _ : B => C0) l2); [|reflexivity].
    now rewrite sumL_zero.
  - change (Cadd (sumL (F a) l2) (sumL (fun a0 => sumL (F a0) l2) l1) =
            sumL (fun b => Cadd (F a b) (sumL (fun a0 => F a0 b) l1)) l2).
    now rewrite IH, sumL_add.
Qed.

(** A sum against the row of the identity picks one term. *)
Lemma sumL_delta (f : nat -> C) c n : forall s,
  sumL (fun k => Cmul (if (c =? k)%nat then C1 else C0) (f k)) (seq s n) =
  if ((s <=? c) && (c <? s + n))%nat then f c else C0.
Proof.
  unfold sumL; induction n as [|n IH]; intros s; simpl.
  - destruct (Nat.leb_spec s c), (Nat.ltb_spec c (s + 0)); simpl;
      try reflexivity; lia.
  - rewrite IH.
    destruct (Nat.eqb_spec c s) as [->|Hne].
    + rewrite Cmul_1_l.
      destruct (Nat.leb_spec (S s) s); [lia|]; simpl.
      destruct (Nat.leb_spec s s); [|lia].
      destruct (Nat.ltb_spec s (s + S n)); [|lia]; simpl.
      apply Cadd_0_r.
    + rewrite Cmul_0_l, Cadd_0_l.
      destruct (Nat.leb_spec (S s) c), (Nat.leb_spec s c),
        (Nat.ltb_spec c (S s + n)), (Nat.ltb_spec c (s + S n));
        simpl; try reflexivity; lia.
Qed.

(** ** The identity matrix, products of matrices, shapes that do not fit *)

(** X2.  Applying the identity matrix gives back the data: an array of
    the same shape with the same entry at every position. *)
Theorem apply_prewhitening_identity
  (data : ndarray C) (n0 : nat) (rest : list nat) :
  shape data = n0 :: rest -> n0 <> 0%nat ->
  exists out,
    apply_prewhitening data (identity_matrix n0) = inr out /\
    shape out = shape data /\
    forall idx, in_range (shape data) idx -> elem out idx = elem data idx.
Proof.
  intros Hs Hn.
  destruct (@apply_prewhitening_entries data (identity_matrix n0) n0 rest
              Hs Hn eq_refl) as (out & E & Hshape & Hout).
  exists out; split; [exact E|]; split; [exact Hshape|].
  rewrite Hs; intros idx Hidx; unfold in_range in Hidx.
  inversion Hidx as [|c d ridx ds Hc Hr]; subst.
  rewrite (Hout c ridx Hc Hr), Csum_sumL.
  unfold identity_matrix; cbn [elem].
  rewrite (sumL_delta (fun k => elem data (k :: ridx)) c n0 0).
  destruct (Nat.leb_spec 0 c); [|lia].
  destruct (Nat.ltb_spec c (0 + n0)); [reflexivity|lia].
Qed.

Lemma apply_prewhitening_identity_witness :
  shape Inputs.two_coil_constant = [2; 4; 4]%nat /\
  2%nat <> 0%nat /\
  exists out,
    apply_prewhitening Inputs.two_coil_constant (identity_matrix 2)
      = inr out /\
    shape out = shape Inputs.two_coil_constant /\
    forall idx, in_range (shape Inputs.two_coil_constant) idx ->
                elem out idx = elem Inputs.two_coil_constant idx.
Proof.
  split; [reflexivity|]; split; [discriminate|].
  apply (@apply_prewhitening_identity Inputs.two_coil_constant 2
           [4; 4]%nat); [reflexivity|discriminate].
Defined.

(** X3.  Applying [A] and then [B] gives, at every position, what
    applying the matrix product [B * A] gives in one call. *)
Theorem apply_prewhitening_compose
  (data A B : ndarray C) (n0 : nat) (rest : list nat) :
  shape data = n0 :: rest -> n0 <> 0%nat ->
  shape A = [n0; n0] -> shape B = [n0; n0] ->
  exists out1 out2 out12,
    apply_prewhitening data A = inr out1 /\
    apply_prewhitening out1 B = inr out2 /\
    apply_prewhitening data (matmul B A) = inr out12 /\
    shape out2 = shape out12 /\
    forall idx, in_range (shape data) idx -> elem out2 idx = elem out12 idx.
Proof.
  intros Hs Hn HA HB.
  destruct (@apply_prewhitening_entries data A n0 rest Hs Hn HA)
    as (out1 & E1 & Hs1 & H1).
  rewrite Hs in Hs1.
  destruct (@apply_prewhitening_entries out1 B n0 rest Hs1 Hn HB)
    as (out2 & E2 & Hs2 & H2).
  assert (HBA : shape (matmul B A) = [n0; n0]).
  { unfold matmul, nrows, ncols; rewrite HA, HB; reflexivity. }
  destruct (@apply_prewhitening_entries data (matmul B A) n0 rest Hs Hn HBA)
    as (out12 & E12 & Hs12 & H12).
  exists out1, out2, out12; repeat (split; [assumption|]).
  split; [congruence|].
  rewrite Hs; intros idx Hidx; unfold in_range in Hidx.
  inversion Hidx as [|c d ridx ds Hc Hr]; subst.
  rewrite (H2 c ridx Hc Hr), (H12 c ridx Hc Hr), !Csum_sumL.
  rewrite (sumL_ext _ (fun j => sumL (fun k => Cmul (Cmul (elem B [c; j])
                                                          (elem A [j; k]))
                                                    (elem data (k :: ridx)))
                                     (seq 0 n0))).
  2:{ intros j Hj; apply in_seq in Hj.
      rewrite (H1 j ridx) by (lia || assumption).
      rewrite Csum_sumL, <- sumL_scale_l.
      apply sumL_ext; intros k _; apply Cmul_assoc. }
  rewrite sumL_swap; apply sumL_ext; intros k _.
  rewrite sumL_scale_r; f_equal.
  unfold matmul, ncols; cbn [elem]; rewrite HB; cbn [nth].
  now rewrite Csum_sumL.
Qed.

Lemma apply_prewhitening_compose_witness :
  shape Inputs.two_coil_constant = [2; 4; 4]%nat /\
  2%nat <> 0%nat /\
  shape (identity_matrix 2) = [2; 2]%nat /\
  exists out1 out2 out12,
    apply_prewhitening Inputs.two_coil_constant (identity_matrix 2)
      = inr out1 /\
    apply_prewhitening out1 (identity_matrix 2) = inr out2 /\
    apply_prewhitening Inputs.two_coil_constant
      (matmul (identity_matrix 2) (identity_matrix 2)) = inr out12 /\
    shape out2 = shape out12 /\
    forall idx, in_range (shape Inputs.two_coil_constant) idx ->
                elem out2 idx = elem out12 idx.
Proof.
  split; [reflexivity|]; split; [discriminate|]; split; [reflexivity|].
  apply (@apply_prewhitening_compose Inputs.two_coil_constant
           (identity_matrix 2) (identity_matrix 2) 2 [4; 4]%nat);
    [reflexivity|discriminate|reflexivity|reflexivity].
Defined.

(** X4.  For data that holds at least one entry, a two-dimensional matrix
    that is not square with the side of the coil axis makes the function
    raise [ValueError]: from the matrix product when the columns do not
    match the coils, from the last reshape when the rows do not. *)
Theorem apply_prewhitening_shape_mismatch
  (data dmtx : ndarray C) (n0 r c : nat) (rest : list nat) :
  shape data = n0 :: rest -> size data <> 0%nat ->
  shape dmtx = [r; c] -> (r <> n0 \/ c <> n0) ->
  apply_prewhitening data dmtx = inl ValueError.
Proof.
  intros Hs Hsize Hd Hne.
  pose proof (@size_cons _ data n0 rest Hs) as Hsz.
  assert (Hn : n0 <> 0%nat) by (intros ->; lia).
  unfold apply_prewhitening, asmatrix; rewrite Hd.
  rewrite (@reshape_coil_samples_shape data n0 rest Hs Hn).
  unfold matmul, nrows, ncols; rewrite Hd; cbn [shape nth].
  destruct (Nat.eqb_spec c n0) as [->|]; [|reflexivity].
  destruct (Nat.eqb_spec (r * fold_right Nat.mul 1%nat rest) (size data))
    as [E|]; [|reflexivity].
  exfalso; destruct Hne as [Hr|Hc]; [|now apply Hc].
  apply Hr; rewrite Hsz in E, Hsize; nia.
Qed.

Lemma apply_prewhitening_shape_mismatch_witness :
  shape Inputs.two_coil_constant = [2; 4; 4]%nat /\
  size Inputs.two_coil_constant <> 0%nat /\
  shape (identity_matrix 3) = [3; 3]%nat /\
  (3%nat <> 2%nat \/ 3%nat <> 2%nat) /\
  apply_prewhitening Inputs.two_coil_constant (identity_matrix 3)
    = inl ValueError.
Proof.
  split; [reflexivity|]; split; [vm_compute; discriminate|].
  split; [reflexivity|]; split; [left; discriminate|].
  apply (@apply_prewhitening_shape_mismatch Inputs.two_coil_constant
           (identity_matrix 3) 2 3 3 [4; 4]%nat);
    [reflexivity|vm_compute; discriminate|reflexivity|left; discriminate].
Defined.

(** ** smooth is linear and commutes with conjugation *)

Lemma Rsum_add f g n : Rsum (fun k => f k + g k) n = Rsum f n + Rsum g n.
Proof.
  unfold Rsum; induction (seq 0 n) as [|k l IH]; simpl; [lra|].
  rewrite IH; lra.
Qed.

Lemma Rsum_scale t f n : Rsum (fun k => t * f k) n = t * Rsum f n.
Proof.
  unfold Rsum; induction (seq 0 n) as [|k l IH]; simpl; [lra|].
  rewrite IH; lra.
Qed.

Lemma uniform_filter1d_add a b sz ax :
  shape a = shape b ->
  uniform_filter1d (rarr_add a b) sz ax =
  rarr_add (uniform_filter1d a sz ax) (uniform_filter1d b sz ax).
Proof.
  intros Hs; apply ndarray_eq; simpl; [reflexivity|]; intros idx.
  rewrite Rsum_add, <- Hs; unfold Rdiv; lra.
Qed.

Lemma uniform_filter1d_scale t a sz ax :
  uniform_filter1d (rarr_scale t a) sz ax =
  rarr_scale t (uniform_filter1d a sz ax).
Proof.
  apply ndarray_eq; simpl; [reflexivity|]; intros idx.
  rewrite Rsum_scale; unfold Rdiv; lra.
Qed.

Lemma uniform_filter_add a b sz :
  shape a = shape b ->
  uniform_filter (rarr_add a b) sz =
  rarr_add (uniform_filter a sz) (uniform_filter b sz).
Proof.
  intros Hs; unfold uniform_filter; destruct (1 <? sz)%nat; [|reflexivity].
  change (ndim (rarr_add a b)) with (ndim a).
  replace (ndim b) with (ndim a) by (unfold ndim; now rewrite Hs).
  generalize (seq 0 (ndim a)); intros l; revert a b Hs.
  induction l as [|ax l IH]; intros a b Hs; simpl; [reflexivity|].
  rewrite uniform_filter1d_add by exact Hs.
  apply IH; simpl; exact Hs.
Qed.

Lemma uniform_filter_scale t a sz :
  uniform_filter (rarr_scale t a) sz = rarr_scale t (uniform_filter a sz).
Proof.
  unfold uniform_filter; destruct (1 <? sz)%nat; [|reflexivity].
  change (ndim (rarr_scale t a)) with (ndim a).
  generalize (seq 0 (ndim a)); intros l; revert a.
  induction l as [|ax l IH]; intros a; simpl; [reflexivity|].
  now rewrite uniform_filter1d_scale, IH.
Qed.

(** X5.  Smoothing the sum of two fields of the same shape gives the sum
    of the two smoothed fields. *)
Theorem smooth_add (a b : ndarray C) (box : nat) :
  shape a = shape b ->
  smooth (arr_add a b) box = arr_add (smooth a box) (smooth b box).
Proof.
  intros Hs; apply ndarray_eq.
  - unfold arr_add; cbn [shape]; now rewrite !smooth_shape.
  - intros idx; unfold arr_add at 2; cbn [elem]; rewrite !smooth_elem.
    replace (real (arr_add a b)) with (rarr_add (real a) (real b))
      by (apply ndarray_eq; [reflexivity|]; intros; reflexivity).
    replace (imag (arr_add a b)) with (rarr_add (imag a) (imag b))
      by (apply ndarray_eq; [reflexivity|]; intros; reflexivity).
    rewrite !uniform_filter_add by exact Hs; reflexivity.
Qed.

Lemma smooth_add_witness :
  shape Inputs.one_coil_step = shape Inputs.one_coil_step /\
  smooth (arr_add Inputs.one_coil_step Inputs.one_coil_step) 5 =
  arr_add (smooth Inputs.one_coil_step 5) (smooth Inputs.one_coil_step 5).
Proof.
  split; [reflexivity|].
  apply (@smooth_add Inputs.one_coil_step Inputs.one_coil_step 5).
  reflexivity.
Defined.

Lemma smooth_homogeneous (z : C) (a : ndarray C) (box : nat) :
  smooth (arr_scale z a) box = arr_scale z (smooth a box).
Proof.
  apply ndarray_eq.
  - unfold arr_scale; cbn [shape]; now rewrite !smooth_shape.
  - intros idx; unfold arr_scale at 2; cbn [elem]; rewrite !smooth_elem.
    replace (real (arr_scale z a))
      with (rarr_add (rarr_scale (Re z) (real a))
                     (rarr_scale (- Im z) (imag a))).
    2:{ apply ndarray_eq; [reflexivity|]; intros i; simpl.
        destruct z, (elem a i); cplx; lra. }
    replace (imag (arr_scale z a))
      with (rarr_add (rarr_scale (Re z) (imag a))
                     (rarr_scale (Im z) (real a))).
    2:{ apply ndarray_eq; [reflexivity|]; intros i; simpl.
        destruct z, (elem a i); cplx; lra. }
    rewrite !uniform_filter_add, !uniform_filter_scale by reflexivity.
    destruct z; cplx; simpl; apply C_eq; lra.
Qed.

(** X6.  Smoothing a field multiplied by a complex number gives the
    smoothed field multiplied by that number. *)
Theorem smooth_scale (z : C) (a : ndarray C) (box : nat) :
  smooth (arr_scale z a) box = arr_scale z (smooth a box).
Proof. apply smooth_homogeneous. Qed.

(** X7.  Smoothing the complex conjugate of a field gives the conjugate
    of the smoothed field. *)
Theorem smooth_conj (a : ndarray C) (box : nat) :
  smooth (arr_conj a) box = arr_conj (smooth a box).
Proof.
  apply ndarray_eq.
  - unfold arr_conj; cbn [shape]; now rewrite !smooth_shape.
  - intros idx; unfold arr_conj at 2; cbn [elem]; rewrite !smooth_elem.
    replace (real (arr_conj a)) with (real a)
      by (apply ndarray_eq; [reflexivity|]; intros; reflexivity).
    replace (imag (arr_conj a)) with (arr_neg (imag a))
      by (apply ndarray_eq; [reflexivity|]; intros; reflexivity).
    now rewrite uniform_filter_neg.
Qed.

(** ** The window never leaves the array *)

Lemma reflect_index_lt n i : (0 < n)%nat -> (reflect_index n i < n)%nat.
Proof.
  intros Hn; unfold reflect_index.
  assert (H : (0 <= i mod (2 * Z.of_nat n) < 2 * Z.of_nat n)%Z)
    by (apply Z.mod_pos_bound; lia).
  destruct (Nat.ltb_spec (Z.to_nat (i mod (2 * Z.of_nat n))) n); lia.
Qed.

Lemma in_range_nth dims idx ax :
  in_range dims idx -> (ax < length dims)%nat ->
  (nth ax idx 0 < nth ax dims 0)%nat.
Proof.
  unfold in_range; intros H; revert ax.
  induction H as [|i d rest ds Hi _ IH]; intros ax Hax; simpl in Hax.
  - lia.
  - destruct ax as [|ax]; simpl; [exact Hi|apply IH; lia].
Qed.

Lemma set_axis_in_range dims idx ax j :
  in_range dims idx -> (j < nth ax dims 0)%nat ->
  in_range dims (set_axis ax j idx).
Proof.
  unfold in_range; intros H; revert ax.
  induction H as [|i d rest ds Hi Hr IH]; intros ax Hj.
  - destruct ax; constructor.
  - destruct ax as [|ax]; simpl in Hj |- *; constructor; auto.
Qed.

Lemma Rsum_bounds f n lo hi :
  (forall k, lo <= f k <= hi) ->
  INR n * lo <= Rsum f n <= INR n * hi.
Proof.
  intros H; unfold Rsum; generalize 0%nat.
  induction n as [|n IH]; intros s.
  - simpl; lra.
  - rewrite S_INR; simpl; specialize (IH (S s)); specialize (H s); lra.
Qed.

Lemma uniform_filter1d_bounds a sz ax lo hi :
  (1 < sz)%nat -> (ax < ndim a)%nat ->
  (forall idx, in_range (shape a) idx -> lo <= elem a idx <= hi) ->
  forall idx, in_range (shape (uniform_filter1d a sz ax)) idx ->
              lo <= elem (uniform_filter1d a sz ax) idx <= hi.
Proof.
  intros Hsz Hax H idx Hidx; simpl in Hidx |- *.
  pose proof (in_range_nth Hidx Hax) as Hn.
  assert (Hpos : 0 < INR sz) by (apply lt_0_INR; lia).
  match goal with
  | |- _ <= Rsum ?f _ / _ <= _ => pose proof (@Rsum_bounds f sz lo hi) as B
  end.
  destruct B as [B1 B2].
  { intros k; apply H, set_axis_in_range; [exact Hidx|].
    apply reflect_index_lt; lia. }
  split.
  - apply Rmult_le_reg_r with (INR sz); [exact Hpos|].
    unfold Rdiv; rewrite Rmult_assoc, Rinv_l by lra; lra.
  - apply Rmult_le_reg_r with (INR sz); [exact Hpos|].
    unfold Rdiv; rewrite Rmult_assoc, Rinv_l by lra; lra.
Qed.

(** Values of the filtered array lie between the bounds of the entries of
    the input: positions outside the array are never read. *)
Lemma uniform_filter_bounds a sz lo hi :
  (forall idx, in_range (shape a) idx -> lo <= elem a idx <= hi) ->
  forall idx, in_range (shape a) idx ->
              lo <= elem (uniform_filter a sz) idx <= hi.
Proof.
  unfold uniform_filter; destruct (Nat.ltb_spec 1 sz) as [Hsz|]; [|auto].
  assert (G : forall l b,
             Forall (fun ax => (ax < ndim b)%nat) l ->
             (forall idx, in_range (shape b) idx -> lo <= elem b idx <= hi) ->
             forall idx,
               in_range (shape b) idx ->
               lo <= elem (fold_left (fun a0 ax => uniform_filter1d a0 sz ax)
                                     l b) idx <= hi).
  { induction l as [|ax l IH]; intros b Hl Hb idx Hidx; simpl; [auto|].
    inversion Hl as [|? ? Hax Hl']; subst.
    apply IH; [exact Hl'| |exact Hidx].
    now apply uniform_filter1d_bounds. }
  intros H idx Hidx; apply G; try assumption.
  apply Forall_forall; intros ax Hax; apply in_seq in Hax; lia.
Qed.

(** X8.  If the real parts of the entries of a field lie in [lo, hi] and
    the imaginary parts in [lo', hi'], so do those of the smoothed field,
    for every window size.  Only entries inside the array count: the
    reflected window never reads outside it. *)
Theorem smooth_bounds (a : ndarray C) (box : nat) (lo hi lo' hi' : R) :
  (forall idx, in_range (shape a) idx ->
               lo <= Re (elem a idx) <= hi /\
               lo' <= Im (elem a idx) <= hi') ->
  forall idx, in_range (shape a) idx ->
              lo <= Re (elem (smooth a box) idx) <= hi /\
              lo' <= Im (elem (smooth a box) idx) <= hi'.
Proof.
  intros H idx Hidx; rewrite smooth_elem; cbn [Re Im fst snd]; split.
  - apply uniform_filter_bounds; [|exact Hidx].
    intros i Hi; apply (H i Hi).
  - apply uniform_filter_bounds; [|exact Hidx].
    intros i Hi; apply (H i Hi).
Qed.

Lemma smooth_bounds_witness :
  (forall idx, in_range (shape Inputs.one_coil_step) idx ->
               0 <= Re (elem Inputs.one_coil_step idx) <= 1 /\
               0 <= Im (elem Inputs.one_coil_step idx) <= 0) /\
  forall idx, in_range (shape Inputs.one_coil_step) idx ->
              0 <= Re (elem (smooth Inputs.one_coil_step 5) idx) <= 1 /\
              0 <= Im (elem (smooth Inputs.one_coil_step 5) idx) <= 0.
Proof.
  assert (H : forall idx, in_range (shape Inputs.one_coil_step) idx ->
                          0 <= Re (elem Inputs.one_coil_step idx) <= 1 /\
                          0 <= Im (elem Inputs.one_coil_step idx) <= 0).
  { intros idx _; unfold Inputs.one_coil_step; cbn [elem].
    destruct idx as [|c [|y [|[|x] [|? ?]]]]; cplx; lra. }
  split; [exact H|].
  apply (@smooth_bounds Inputs.one_coil_step 5 0 1 0 0 H).
Defined.

Lemma constant_field_smoothed a box c :
  (forall idx, in_range (shape a) idx -> elem a idx = c) ->
  forall idx, in_range (shape a) idx -> elem (smooth a box) idx = c.
Proof.
  intros H idx Hidx.
  destruct (@uniform_filter_bounds (real a) box (Re c) (Re c)) with (idx := idx)
    as [R1 R2]; [|exact Hidx|].
  { intros i Hi; simpl in Hi |- *; rewrite (H i Hi); lra. }
  destruct (@uniform_filter_bounds (imag a) box (Im c) (Im c)) with (idx := idx)
    as [I1 I2]; [|exact Hidx|].
  { intros i Hi; simpl in Hi |- *; rewrite (H i Hi); lra. }
  rewrite smooth_elem; destruct c as [cr ci]; simpl in *.
  apply C_eq; lra.
Qed.

(** X9.  A field whose entries all equal [c] is left unchanged by
    smoothing, for every window size and shape. *)
Theorem smooth_constant (a : ndarray C) (box : nat) (c : C) :
  (forall idx, in_range (shape a) idx -> elem a idx = c) ->
  forall idx, in_range (shape a) idx -> elem (smooth a box) idx = c.
Proof. apply constant_field_smoothed. Qed.

Lemma smooth_constant_witness :
  (forall idx, in_range (shape Inputs.flat_image) idx ->
               elem Inputs.flat_image idx = C1) /\
  forall idx, in_range (shape Inputs.flat_image) idx ->
              elem (smooth Inputs.flat_image 5) idx = C1.
Proof.
  split; [intros; reflexivity|].
  apply (@smooth_constant Inputs.flat_image 5 C1); intros; reflexivity.
Defined.

(** ** What a loop state can be *)

Lemma normalize_ok w : state_ok (length w) (normalize w).
Proof.
  unfold normalize; destruct (Req_EM_T (norm w) 0) as [E|E].
  - destruct w as [|z w]; simpl; [|exact E].
    split; [reflexivity|]; left; split; [reflexivity|exact E].
  - simpl; split; [apply length_map|]; right; split.
    + pose proof (norm_nonneg w); lra.
    + now apply unit_vector_norm.
Qed.

Lemma power_step_ok n R st :
  length R = n -> state_ok n st -> state_ok n (power_step R st).
Proof.
  intros HR Hst; unfold power_step.
  destruct st as [[v|] lam]; cbn [fst]; [|exact I].
  rewrite <- HR, <- (dot_length R v); apply normalize_ok.
Qed.

Lemma power_loop_ok n R niter : forall st,
  length R = n -> state_ok n st -> state_ok n (power_loop R niter st).
Proof.
  induction niter as [|k IH]; intros st HR Hst; simpl; [exact Hst|].
  apply IH; [exact HR|]; now apply power_step_ok.
Qed.

Lemma pixel_eig_ok n R niter :
  square n R -> state_ok n (pixel_eig n R niter).
Proof.
  intros [HR Hrows]; unfold pixel_eig; apply power_loop_ok; [exact HR|].
  rewrite <- (@sum_axis0_length n R Hrows) at 1; apply normalize_ok.
Qed.

(** X10.  At every pixel the power map holds a non-negative number or
    NaN, and where it holds NaN the sensitivity map holds NaN for every
    coil. *)
Theorem csm_walsh_power_nonneg (img : ndarray C) (smoothing niter : nat) :
  ndim img = 3%nat ->
  exists csm rho,
    calculate_csm_walsh img smoothing niter = Return (csm, rho) /\
    forall y x,
      (forall l, elem rho [y; x] = Some l -> 0 <= l) /\
      (elem rho [y; x] = None -> forall c, elem csm [c; y; x] = None).
Proof.
  intros Hdim.
  destruct (calculate_csm_walsh_returns img smoothing niter Hdim)
    as [[csm rho] E].
  exists csm, rho; split; [exact E|]; intros y x.
  destruct (calculate_csm_walsh_pixel _ _ _ E y x) as [Hrho Hcsm].
  pose proof (@pixel_eig_ok (nth 0 (shape img) 0%nat)
                (smoothed_local_matrix img smoothing y x) niter
                (local_matrix_square _ _ _ _)) as Hok.
  destruct (pixel_eig _ _ niter) as [[v|] [l|]]; simpl in *.
  - split; [|rewrite Hrho; discriminate].
    intros l' E'; rewrite Hrho in E'; injection E' as <-.
    destruct Hok as [_ [[_ ->]|[H _]]]; lra.
  - contradiction.
  - split; [|rewrite Hrho; discriminate].
    intros l' E'; rewrite Hrho in E'; injection E' as <-; lra.
  - split; [rewrite Hrho; discriminate|].
    intros _ c; apply Hcsm.
Qed.

Lemma csm_walsh_power_nonneg_witness :
  ndim Inputs.two_coil_constant = 3%nat /\
  exists csm rho,
    calculate_csm_walsh Inputs.two_coil_constant 5 3 = Return (csm, rho) /\
    forall y x,
      (forall l, elem rho [y; x] = Some l -> 0 <= l) /\
      (elem rho [y; x] = None -> forall c, elem csm [c; y; x] = None).
Proof.
  split; [reflexivity|].
  apply (@csm_walsh_power_nonneg Inputs.two_coil_constant 5 3); reflexivity.
Defined.

(** X11.  With at least one coil, a pixel at which the sensitivity map
    holds a number for some coil holds numbers for all coils; they form a
    vector of 2-norm 1, and the power map holds a positive number
    there. *)
Theorem csm_walsh_finite_pixel (img : ndarray C) (smoothing niter : nat) :
  ndim img = 3%nat -> (1 <= nth 0 (shape img) 0)%nat ->
  exists csm rho,
    calculate_csm_walsh img smoothing niter = Return (csm, rho) /\
    forall y x c z,
      elem csm [c; y; x] = Some z ->
      exists v l,
        length v = nth 0 (shape img) 0%nat /\
        (forall c', elem csm [c'; y; x] = Some (nth c' v C0)) /\
        norm v = 1 /\
        elem rho [y; x] = Some l /\ 0 < l.
Proof.
  intros Hdim Hn.
  destruct (calculate_csm_walsh_returns img smoothing niter Hdim)
    as [[csm rho] E].
  exists csm, rho; split; [exact E|]; intros y x c z Hz.
  destruct (calculate_csm_walsh_pixel _ _ _ E y x) as [Hrho Hcsm].
  pose proof (@pixel_eig_ok (nth 0 (shape img) 0%nat)
                (smoothed_local_matrix img smoothing y x) niter
                (local_matrix_square _ _ _ _)) as Hok.
  rewrite (Hcsm c) in Hz.
  destruct (pixel_eig _ _ niter) as [[v|] [l|]]; simpl in *;
    try discriminate; try contradiction.
  destruct Hok as [Hlen [[H0 _]|[Hl Hv]]]; [lia|].
  exists v, l; repeat split; assumption.
Qed.

Lemma csm_walsh_finite_pixel_witness :
  ndim Inputs.one_coil_step = 3%nat /\
  (1 <= nth 0 (shape Inputs.one_coil_step) 0)%nat /\
  exists csm rho,
    calculate_csm_walsh Inputs.one_coil_step 5 3 = Return (csm, rho) /\
    forall y x c z,
      elem csm [c; y; x] = Some z ->
      exists v l,
        length v = nth 0 (shape Inputs.one_coil_step) 0%nat /\
        (forall c', elem csm [c'; y; x] = Some (nth c' v C0)) /\
        norm v = 1 /\
        elem rho [y; x] = Some l /\ 0 < l.
Proof.
  split; [reflexivity|]; split; [simpl; lia|].
  apply (@csm_walsh_finite_pixel Inputs.one_coil_step 5 3);
    [reflexivity|simpl; lia].
Defined.

(** ** The diagonal of the covariance field *)

(** X12.  The entries of the covariance field with equal coil indices are
    real and not negative, as first formed and after smoothing. *)
Theorem covariance_diagonal_real
  (img : ndarray C) (smoothing p y x : nat) :
  let Rs0 := pointwise_covariance img in
  let Rs := smooth_covariance Rs0 smoothing in
  (Im (elem Rs0 [p; p; y; x]) = 0 /\ 0 <= Re (elem Rs0 [p; p; y; x])) /\
  (Im (elem Rs [p; p; y; x]) = 0 /\ 0 <= Re (elem Rs [p; p; y; x])).
Proof.
  intros Rs0 Rs; subst Rs Rs0.
  assert (D : forall yx,
             Im (elem (pointwise_covariance img) (p :: p :: yx)) = 0 /\
             0 <= Re (elem (pointwise_covariance img) (p :: p :: yx))).
  { intros yx; unfold pointwise_covariance; cbn [elem].
    destruct (elem img (p :: yx)) as [a b]; cplx; split; nra. }
  split; [apply D|].
  unfold smooth_covariance; cbn [elem]; rewrite smooth_elem.
  cbn [Re Im fst snd].
  split.
  - apply uniform_filter_const; intros yx; apply (D yx).
  - apply uniform_filter_nonneg; intros yx; apply (D yx).
Qed.

(** ** An image that is zero everywhere *)

Lemma map_const_seq {A} (c : A) s n : map (fun _ => c) (seq s n) = repeat c n.
Proof.
  revert s; induction n as [|n IH]; intros s; simpl; [reflexivity|].
  now rewrite IH.
Qed.

Lemma vadd_zero n : vadd (repeat C0 n) (repeat C0 n) = repeat C0 n.
Proof.
  unfold vadd; induction n as [|n IH]; simpl; [reflexivity|].
  now rewrite IH, Cadd_0_l.
Qed.

Lemma sum_axis0_zero n m : sum_axis0 n (repeat (repeat C0 n) m) = repeat C0 n.
Proof.
  unfold sum_axis0; induction m as [|m IH]; simpl; [reflexivity|].
  now rewrite vadd_zero.
Qed.

Lemma sumsq_zero n : sumsq (repeat C0 n) = 0.
Proof.
  unfold sumsq; induction n as [|n IH]; simpl; [reflexivity|].
  rewrite IH; cplx; lra.
Qed.

Lemma pixel_eig_zero n niter :
  pixel_eig (S n) (repeat (repeat C0 (S n)) (S n)) niter =
  (None, match niter with O => Some 0 | S _ => None end).
Proof.
  unfold pixel_eig; rewrite sum_axis0_zero.
  change (repeat C0 (S n)) with (C0 :: repeat C0 n) at 2.
  rewrite normalize_zero by apply (sumsq_zero (S n)).
  destruct niter as [|k]; [reflexivity|apply power_loop_nan].
Qed.

(** The smoothed covariance of a zero image is zero inside the array. *)
Lemma zero_image_local_matrix img smoothing n ny nx y x :
  shape img = [n; ny; nx] ->
  (forall idx, in_range (shape img) idx -> elem img idx = C0) ->
  (y < ny)%nat -> (x < nx)%nat ->
  smoothed_local_matrix img smoothing y x = repeat (repeat C0 n) n.
Proof.
  intros Hs Hz Hy Hx; unfold smoothed_local_matrix, local_matrix.
  rewrite Hs; cbn [nth].
  rewrite <- (map_const_seq (repeat C0 n) 0 n).
  apply map_ext_in; intros p Hp; apply in_seq in Hp.
  rewrite <- (map_const_seq C0 0 n).
  apply map_ext_in; intros q Hq; apply in_seq in Hq.
  unfold smooth_covariance; cbn [elem].
  apply constant_field_smoothed.
  - unfold plane, pointwise_covariance; cbn [shape elem]; rewrite Hs.
    cbn [skipn]; intros yx Hyx.
    rewrite (Hz (p :: yx)) by (rewrite Hs; constructor; [lia|exact Hyx]).
    apply Cmul_0_l.
  - unfold plane, pointwise_covariance; cbn [shape]; rewrite Hs; cbn [skipn].
    repeat constructor; assumption.
Qed.

(** X13.  For an image stack with at least one coil whose entries are
    all zero, the sensitivity map is NaN at every pixel and every coil,
    and the power map is 0 when no iteration is asked for and NaN
    otherwise. *)
Theorem csm_walsh_zero_image
  (img : ndarray C) (smoothing niter n ny nx : nat) :
  shape img = [S n; ny; nx] ->
  (forall idx, in_range (shape img) idx -> elem img idx = C0) ->
  exists csm rho,
    calculate_csm_walsh img smoothing niter = Return (csm, rho) /\
    forall y x,
      (y < ny)%nat -> (x < nx)%nat ->
      (forall c, elem csm [c; y; x] = None) /\
      elem rho [y; x] = match niter with O => Some 0 | S _ => None end.
Proof.
  intros Hs Hz.
  assert (Hdim : ndim img = 3%nat) by (unfold ndim; now rewrite Hs).
  destruct (calculate_csm_walsh_returns img smoothing niter Hdim)
    as [[csm rho] E].
  exists csm, rho; split; [exact E|]; intros y x Hy Hx.
  destruct (calculate_csm_walsh_pixel _ _ _ E y x) as [Hrho Hcsm].
  rewrite (@zero_image_local_matrix img smoothing (S n) ny nx y x
             Hs Hz Hy Hx) in Hrho, Hcsm.
  rewrite Hs in Hrho, Hcsm; cbn [nth] in Hrho, Hcsm.
  rewrite pixel_eig_zero in Hrho, Hcsm.
  split; [exact Hcsm|exact Hrho].
Qed.

Lemma csm_walsh_zero_image_witness :
  shape zero_stack = [2; 4; 4]%nat /\
  (forall idx, in_range (shape zero_stack) idx ->
               elem zero_stack idx = C0) /\
  exists csm rho,
    calculate_csm_walsh zero_stack 5 3
      = Return (csm, rho) /\
    forall y x,
      (y < 4)%nat -> (x < 4)%nat ->
      (forall c, elem csm [c; y; x] = None) /\
      elem rho [y; x] = None.
Proof.
  split; [reflexivity|]; split; [intros; reflexivity|].
  apply (@csm_walsh_zero_image zero_stack
           5 3 1 4 4); [reflexivity|intros; reflexivity].
Defined.

(** ** Rescaling the image *)

Lemma pointwise_covariance_scale z img :
  pointwise_covariance (arr_scale z img) =
  arr_scale (RtoC (Cabs2 z)) (pointwise_covariance img).
Proof.
  apply ndarray_eq; [reflexivity|].
  intros [|p [|q yx]]; unfold pointwise_covariance, arr_scale; cbn [elem].
  - symmetry; apply Cmul_0_r.
  - symmetry; apply Cmul_0_r.
  - destruct z, (elem img (p :: yx)), (elem img (q :: yx)).
    cplx; apply C_eq; ring.
Qed.

Lemma smooth_covariance_scale w Rs smoothing :
  smooth_covariance (arr_scale w Rs) smoothing =
  arr_scale w (smooth_covariance Rs smoothing).
Proof.
  apply ndarray_eq; [reflexivity|].
  intros [|p [|q yx]]; unfold smooth_covariance, arr_scale at 2; cbn [elem].
  - symmetry; apply Cmul_0_r.
  - symmetry; apply Cmul_0_r.
  - replace (smooth _ smoothing)
      with (smooth (arr_scale w (plane Rs p q)) smoothing) by reflexivity.
    now rewrite smooth_homogeneous.
Qed.

Lemma local_matrix_scale w Rs n y x :
  local_matrix (arr_scale w Rs) n y x =
  map (map (Cmul w)) (local_matrix Rs n y x).
Proof.
  unfold local_matrix; rewrite map_map; apply map_ext; intros p.
  now rewrite map_map.
Qed.

Lemma vadd_map w u : forall v,
  vadd (map (Cmul w) u) (map (Cmul w) v) = map (Cmul w) (vadd u v).
Proof.
  unfold vadd; induction u as [|a u IH]; intros [|b v]; simpl;
    try reflexivity.
  now rewrite IH, Cmul_add_distr_l.
Qed.

Lemma sum_axis0_scale w n R :
  sum_axis0 n (map (map (Cmul w)) R) = map (Cmul w) (sum_axis0 n R).
Proof.
  unfold sum_axis0.
  replace (repeat C0 n) with (map (Cmul w) (repeat C0 n)) at 1
    by (rewrite map_repeat; now rewrite Cmul_0_r).
  generalize (repeat C0 n); induction R as [|row R IH]; intros acc; simpl;
    [reflexivity|].
  now rewrite vadd_map, IH.
Qed.

Lemma dot_row_scale w row : forall v,
  Csum (map (fun p => Cmul (fst p) (snd p)) (combine (map (Cmul w) row) v)) =
  Cmul w (Csum (map (fun p => Cmul (fst p) (snd p)) (combine row v))).
Proof.
  intros v; rewrite !Csum_fold_right; revert v.
  induction row as [|a row IH]; intros [|b v]; simpl;
    try (now rewrite Cmul_0_r).
  now rewrite IH, Cmul_add_distr_l, Cmul_assoc.
Qed.

Lemma dot_scale w R v :
  dot (map (map (Cmul w)) R) v = map (Cmul w) (dot R v).
Proof.
  unfold dot; rewrite !map_map; apply map_ext; intros row.
  apply dot_row_scale.
Qed.

Lemma sumsq_scale_real t v :
  sumsq (map (Cmul (RtoC t)) v) = t * t * sumsq v.
Proof.
  unfold sumsq; induction v as [|z v IH]; simpl; [lra|].
  rewrite IH; destruct z; cplx; ring.
Qed.

Lemma norm_scale_real t v :
  0 <= t -> norm (map (Cmul (RtoC t)) v) = t * norm v.
Proof.
  intros Ht; apply norm_eq.
  - apply Rmult_le_pos; [exact Ht|apply norm_nonneg].
  - rewrite sumsq_scale_real, <- norm_sqr; ring.
Qed.

Lemma normalize_scale t w :
  0 < t ->
  normalize (map (Cmul (RtoC t)) w) = scale_power t (normalize w).
Proof.
  intros Ht; unfold normalize, scale_power.
  rewrite norm_scale_real by lra.
  destruct (Req_EM_T (norm w) 0) as [E|E].
  - rewrite E, Rmult_0_r.
    destruct (Req_EM_T 0 0); [|contradiction]; simpl.
    rewrite Rmult_0_r; destruct w; reflexivity.
  - destruct (Req_EM_T (t * norm w) 0) as [E'|_]; [exfalso; nra|]; simpl.
    rewrite map_map; do 2 f_equal; apply map_ext; intros z.
    rewrite !Cdiv_real by nra.
    destruct z; cplx; apply C_eq; field; split; lra.
Qed.

Lemma power_loop_scale t R niter : forall st,
  0 < t ->
  power_loop (map (map (Cmul (RtoC t))) R) niter (scale_power t st) =
  scale_power t (power_loop R niter st).
Proof.
  induction niter as [|k IH]; intros st Ht; simpl; [reflexivity|].
  rewrite <- IH by exact Ht; f_equal.
  unfold power_step; destruct st as [[v|] lam]; cbn [scale_power fst snd].
  - now rewrite dot_scale, normalize_scale.
  - reflexivity.
Qed.

Lemma pixel_eig_scale t n R niter :
  0 < t ->
  pixel_eig n (map (map (Cmul (RtoC t))) R) niter =
  scale_power t (pixel_eig n R niter).
Proof.
  intros Ht; unfold pixel_eig.
  now rewrite sum_axis0_scale, normalize_scale, power_loop_scale.
Qed.

(** X14.  Multiplying the whole image stack by a complex number [z]
    other than 0 leaves the sensitivity map as it is and multiplies the
    power map by [|z|^2]; NaN stays NaN. *)
Theorem csm_walsh_rescaled_image
  (z : C) (img : ndarray C) (smoothing niter : nat) :
  ndim img = 3%nat -> Cabs2 z <> 0 ->
  exists csm rho csm' rho',
    calculate_csm_walsh img smoothing niter = Return (csm, rho) /\
    calculate_csm_walsh (arr_scale z img) smoothing niter
      = Return (csm', rho') /\
    forall y x,
      (forall c, elem csm' [c; y; x] = elem csm [c; y; x]) /\
      elem rho' [y; x] = option_map (Rmult (Cabs2 z)) (elem rho [y; x]).
Proof.
  intros Hdim Hz.
  assert (Ht : 0 < Cabs2 z) by (pose proof (Cabs2_nonneg z); lra).
  destruct (calculate_csm_walsh_returns img smoothing niter Hdim)
    as [[csm rho] E].
  destruct (calculate_csm_walsh_returns (arr_scale z img) smoothing niter
              Hdim) as [[csm' rho'] E'].
  exists csm, rho, csm', rho'; split; [exact E|]; split; [exact E'|].
  intros y x.
  destruct (calculate_csm_walsh_pixel _ _ _ E y x) as [Hrho Hcsm].
  destruct (calculate_csm_walsh_pixel _ _ _ E' y x) as [Hrho' Hcsm'].
  unfold smoothed_local_matrix in Hrho', Hcsm'.
  rewrite pointwise_covariance_scale, smooth_covariance_scale,
    local_matrix_scale in Hrho', Hcsm'.
  cbn [arr_scale shape] in Hrho', Hcsm'.
  rewrite pixel_eig_scale in Hrho', Hcsm' by exact Ht.
  unfold smoothed_local_matrix in Hrho, Hcsm.
  split.
  - intros c; rewrite (Hcsm' c), (Hcsm c); reflexivity.
  - rewrite Hrho', Hrho; reflexivity.
Qed.

Lemma csm_walsh_rescaled_image_witness :
  ndim Inputs.two_coil_constant = 3%nat /\
  Cabs2 Ci <> 0 /\
  exists csm rho csm' rho',
    calculate_csm_walsh Inputs.two_coil_constant 5 3 = Return (csm, rho) /\
    calculate_csm_walsh (arr_scale Ci Inputs.two_coil_constant) 5 3
      = Return (csm', rho') /\
    forall y x,
      (forall c, elem csm' [c; y; x] = elem csm [c; y; x]) /\
      elem rho' [y; x] = option_map (Rmult (Cabs2 Ci)) (elem rho [y; x]).
Proof.
  assert (H : Cabs2 Ci <> 0) by (cplx; lra).
  split; [reflexivity|]; split; [exact H|].
  apply (@csm_walsh_rescaled_image Ci Inputs.two_coil_constant 5 3 eq_refl H).
Defined.

(** ** Without smoothing the local matrix has rank one *)

Lemma smooth_small_elem a box idx :
  (box <= 1)%nat -> elem (smooth a box) idx = elem a idx.
Proof.
  intros H; rewrite smooth_elem, !uniform_filter_small by exact H.
  simpl; destruct (elem a idx); reflexivity.
Qed.

Lemma unsmoothed_local_matrix img smoothing y x :
  (smoothing <= 1)%nat ->
  smoothed_local_matrix img smoothing y x = outer (pixel_vector img y x).
Proof.
  intros H; unfold smoothed_local_matrix, local_matrix, outer, pixel_vector.
  rewrite map_map; apply map_ext; intros p.
  rewrite map_map; apply map_ext; intros q.
  unfold smooth_covariance; cbn [elem].
  now rewrite smooth_small_elem by exact H.
Qed.

Lemma dot_outer_row a u : forall v,
  Csum (map (fun p => Cmul (fst p) (snd p))
            (combine (map (fun b => Cmul a (Cconj b)) u) v)) =
  Cmul a (inner u v).
Proof.
  intros v; unfold inner; rewrite !Csum_fold_right; revert v.
  induction u as [|b u IH]; intros [|c v]; simpl;
    try (now rewrite Cmul_0_r).
  now rewrite IH, Cmul_add_distr_l, Cmul_assoc.
Qed.

(** [(u u^H) v = u (u^H v)]. *)
Lemma dot_outer u v :
  dot (outer u) v = map (fun a => Cmul a (inner u v)) u.
Proof.
  unfold dot, outer; rewrite map_map; apply map_ext; intros a.
  apply dot_outer_row.
Qed.

Lemma sumsq_scale_c s u :
  sumsq (map (fun a => Cmul a s) u) = Cabs2 s * sumsq u.
Proof.
  unfold sumsq; induction u as [|a u IH]; simpl; [lra|].
  rewrite IH; destruct a, s; cplx; ring.
Qed.

Lemma norm_scale_c s u :
  norm (map (fun a => Cmul a s) u) = sqrt (Cabs2 s) * norm u.
Proof.
  unfold norm; fold (sumsq (map (fun a => Cmul a s) u)); fold (sumsq u).
  rewrite sumsq_scale_c; apply sqrt_mult.
  - apply Cabs2_nonneg.
  - apply sumsq_nonneg.
Qed.

Lemma inner_unit_scaled u s l :
  l <> 0 ->
  inner u (map (fun z => Cdiv z (RtoC l)) (map (fun a => Cmul a s) u)) =
  Cmul (RtoC (sumsq u / l)) s.
Proof.
  intros Hl; unfold inner, sumsq; rewrite Csum_fold_right.
  induction u as [|a u IH]; simpl.
  - destruct s; cplx; apply C_eq; field; exact Hl.
  - rewrite IH, Cdiv_real by exact Hl.
    destruct a, s; cplx; apply C_eq; field; exact Hl.
Qed.

Lemma Cabs2_scale_real r s : Cabs2 (Cmul (RtoC r) s) = r * r * Cabs2 s.
Proof. destruct s; cplx; ring. Qed.

(** One more step from a multiple of [u] gives the squared norm of [u]
    as the power. *)
Lemma rank_one_power u s :
  norm (map (fun a => Cmul a s) u) <> 0 ->
  norm (dot (outer u) (unit_vector (map (fun a => Cmul a s) u))) = sumsq u.
Proof.
  intros Hn; rewrite dot_outer.
  unfold unit_vector; rewrite inner_unit_scaled by exact Hn.
  rewrite norm_scale_c in Hn; rewrite !norm_scale_c, Cabs2_scale_real.
  assert (Hsa : sqrt (Cabs2 s) * sqrt (Cabs2 s) = Cabs2 s)
    by apply sqrt_sqrt, Cabs2_nonneg.
  pose proof (norm_sqr u) as Hsu.
  pose proof (norm_nonneg u) as Hnu.
  pose proof (sqrt_pos (Cabs2 s)) as Hqa.
  remember (sqrt (Cabs2 s)) as sg eqn:Esg.
  remember (norm u) as nu eqn:Enu.
  assert (Hs0 : sg <> 0) by (intros E; apply Hn; rewrite E; lra).
  assert (Hu0 : nu <> 0) by (intros E; apply Hn; rewrite E; lra).
  rewrite <- Hsa, <- Hsu.
  replace (nu * nu / (sg * nu) * (nu * nu / (sg * nu)) * (sg * sg))
    with (nu * nu) by (field; split; assumption).
  rewrite sqrt_square by exact Hnu; reflexivity.
Qed.

Lemma iterate_outer_form n u k :
  iterate_product n (outer u) (S k) =
  map (fun a => Cmul a (inner u (unit_vector (iterate_product n (outer u) k))))
      u.
Proof. cbn [iterate_product]; apply dot_outer. Qed.

Lemma pixel_vector_nth img y x c :
  (c < nth 0 (shape img) 0)%nat ->
  nth c (pixel_vector img y x) C0 = elem img [c; y; x].
Proof.
  intros Hc; unfold pixel_vector.
  rewrite (nth_indep _ C0 (elem img [0%nat; y; x]))
    by (now rewrite length_map, length_seq).
  rewrite (map_nth (fun c0 => elem img [c0; y; x])), seq_nth by exact Hc.
  reflexivity.
Qed.

Lemma pixel_vector_length img y x :
  length (pixel_vector img y x) = nth 0 (shape img) 0%nat.
Proof. unfold pixel_vector; now rewrite length_map, length_seq. Qed.

Lemma unsmoothed_power img smoothing k y x :
  (smoothing <= 1)%nat ->
  nondegenerate (nth 0 (shape img) 0%nat)
                (smoothed_local_matrix img smoothing y x) (S (S k)) ->
  pixel_eig (nth 0 (shape img) 0%nat)
            (smoothed_local_matrix img smoothing y x) (S (S k)) =
  (Some (unit_vector
           (iterate_product (nth 0 (shape img) 0%nat)
              (smoothed_local_matrix img smoothing y x) (S (S k)))),
   Some (sumsq (pixel_vector img y x))).
Proof.
  intros Hbox Hnd; rewrite (pixel_eig_nondegenerate Hnd); do 2 f_equal.
  assert (H1 : norm (iterate_product (nth 0 (shape img) 0%nat)
                       (smoothed_local_matrix img smoothing y x) (S k)) <> 0)
    by (apply Hnd; lia).
  rewrite unsmoothed_local_matrix in * by exact Hbox.
  cbn [iterate_product] in H1 |- *.
  rewrite (dot_outer (pixel_vector img y x)
             (unit_vector (iterate_product _ _ k))) in H1 |- *.
  now apply rank_one_power.
Qed.


Lemma unit_scaled_entry a s sg nu :
  sg <> 0 -> nu <> 0 ->
  Cdiv (Cmul a s) (RtoC (sg * nu)) =
  Cmul (Cdiv s (RtoC sg)) (Cdiv a (RtoC nu)).
Proof.
  intros Hs Hn; rewrite !Cdiv_real by (assumption || nra).
  destruct a, s; cplx; apply C_eq; field; split; assumption.
Qed.


(** ** The matrix calculate_prewhitening factors *)

Lemma sumL_conj {A} (f : A -> C) l :
  Cconj (sumL f l) = sumL (fun a => Cconj (f a)) l.
Proof.
  unfold sumL; induction l as [|a l IH]; simpl.
  - cplx; apply C_eq; lra.
  - rewrite <- IH; destruct (f a), (fold_right Cadd C0 (map f l)).
    cplx; apply C_eq; lra.
Qed.

Lemma sumL_re_nonneg {A} (f : A -> C) l :
  (forall a, 0 <= Re (f a)) -> 0 <= Re (sumL f l).
Proof.
  intros H; unfold sumL; induction l as [|a l IH]; simpl; [cplx; lra|].
  specialize (H a).
  destruct (f a), (fold_right Cadd C0 (map f l)).
  cbv [Cadd Re Im fst snd] in *; lra.
Qed.

Lemma sumL_im_zero {A} (f : A -> C) l :
  (forall a, Im (f a) = 0) -> Im (sumL f l) = 0.
Proof.
  intros H; unfold sumL; induction l as [|a l IH]; simpl; [reflexivity|].
  specialize (H a).
  destruct (f a), (fold_right Cadd C0 (map f l)).
  cbv [Cadd Re Im fst snd] in *; lra.
Qed.

Lemma Cconj_mul a b : Cconj (Cmul a b) = Cmul (Cconj a) (Cconj b).
Proof. destruct a, b; cplx; apply C_eq; lra. Qed.

Lemma Cconj_RtoC t : Cconj (RtoC t) = RtoC t.
Proof. cplx; apply C_eq; lra. Qed.

Lemma noise_covariance_elem N i j :
  elem (noise_covariance N) [i; j] =
  Cmul (RtoC (1 / (INR (ncols N) - 1)))
       (sumL (fun m => Cmul (elem N [i; m]) (Cconj (elem N [j; m])))
             (seq 0 (ncols N))).
Proof.
  unfold noise_covariance, scale_left, matmul, mat_H; cbn [elem].
  now rewrite Csum_sumL.
Qed.

(** X17.  With at least two samples per coil, the matrix the function
    hands to the Cholesky factorization is Hermitian and its diagonal is
    real and not negative. *)
Theorem noise_covariance_hermitian (N : ndarray C) (i j : nat) :
  (2 <= ncols N)%nat ->
  elem (noise_covariance N) [i; j] = Cconj (elem (noise_covariance N) [j; i])
  /\ Im (elem (noise_covariance N) [i; i]) = 0
  /\ 0 <= Re (elem (noise_covariance N) [i; i]).
Proof.
  intros HM; rewrite !noise_covariance_elem.
  assert (Ht : 0 < 1 / (INR (ncols N) - 1)).
  { apply Rdiv_lt_0_compat; [lra|].
    apply le_INR in HM; simpl in HM; lra. }
  set (t := 1 / (INR (ncols N) - 1)) in *.
  split; [|split].
  - rewrite Cconj_mul, Cconj_RtoC, sumL_conj; f_equal.
    apply sumL_ext; intros m _; apply Cmul_conj_swap.
  - assert (Z : Im (sumL (fun m => Cmul (elem N [i; m])
                                        (Cconj (elem N [i; m])))
                         (seq 0 (ncols N))) = 0).
    { apply sumL_im_zero; intros m; destruct (elem N [i; m]); cplx; lra. }
    destruct (sumL _ _); cbv [Cmul RtoC Re Im fst snd] in *; rewrite Z; lra.
  - assert (P : 0 <= Re (sumL (fun m => Cmul (elem N [i; m])
                                             (Cconj (elem N [i; m])))
                              (seq 0 (ncols N)))).
    { apply sumL_re_nonneg; intros m; destruct (elem N [i; m]); cplx; nra. }
    destruct (sumL _ _); cbv [Cmul RtoC Re Im fst snd] in *; nra.
Qed.

Lemma noise_covariance_hermitian_witness :
  (2 <= ncols Inputs.noise_two_samples)%nat /\
  elem (noise_covariance Inputs.noise_two_samples) [0; 0]%nat =
    Cconj (elem (noise_covariance Inputs.noise_two_samples) [0; 0]%nat)
  /\ Im (elem (noise_covariance Inputs.noise_two_samples) [0; 0]%nat) = 0
  /\ 0 <= Re (elem (noise_covariance Inputs.noise_two_samples) [0; 0]%nat).
Proof.
  split; [vm_compute; lia|].
  apply (@noise_covariance_hermitian Inputs.noise_two_samples 0 0).
  vm_compute; lia.
Defined.

(** ** Only the (coil, samples) layout of the noise matters *)

Lemma reshape_coil_samples_idempotent noise N :
  reshape_coil_samples noise = Return N ->
  reshape_coil_samples N = Return N.
Proof.
  unfold reshape_coil_samples at 1.
  destruct (shape noise) as [|n0 rest]; [discriminate|].
  destruct (Nat.eqb_spec n0 0) as [|Hn]; [discriminate|].
  intros E; injection E as <-.
  unfold reshape_coil_samples; cbn [shape].
  destruct (Nat.eqb_spec n0 0); [contradiction|].
  f_equal; apply ndarray_eq.
  - unfold size; cbn [shape fold_right].
    now rewrite Nat.mul_1_r, Nat.mul_comm, Nat.div_mul.
  - intros [|c [|m [|k idx]]]; try reflexivity.
    cbn [elem unravel fold_right]; now rewrite Nat.div_1_r.
Qed.

(** X18.  The result depends on the noise only through its (coil,
    samples) layout: calling the function on the reshaped array gives
    what calling it on the array itself gives, whatever the trailing
    axes. *)
Theorem prewhitening_of_reshaped_noise
  (chol inverse : ndarray C -> result (ndarray C))
  (noise N : ndarray C) (scale_factor : R) :
  reshape_coil_samples noise = Return N ->
  calculate_prewhitening chol inverse N scale_factor =
  calculate_prewhitening chol inverse noise scale_factor.
Proof.
  intros E; unfold calculate_prewhitening.
  now rewrite (reshape_coil_samples_idempotent _ E), E.
Qed.

Lemma prewhitening_of_reshaped_noise_witness :
  exists N,
    reshape_coil_samples Inputs.two_coil_constant = Return N /\
    shape N = [2; 16]%nat /\
    calculate_prewhitening Linalg.cholesky Linalg.inv N 1 =
    calculate_prewhitening Linalg.cholesky Linalg.inv
                           Inputs.two_coil_constant 1.
Proof.
  eexists; split; [reflexivity|]; split; [reflexivity|].
  apply (@prewhitening_of_reshaped_noise Linalg.cholesky Linalg.inv
           Inputs.two_coil_constant _ 1); reflexivity.
Defined.

(** ** Whitened noise is decorrelated *)

Lemma unravel_in_range dims : forall m,
  (m < fold_right Nat.mul 1 dims)%nat -> in_range dims (unravel dims m).
Proof.
  unfold in_range; induction dims as [|d ds IH]; intros m Hm; simpl.
  - constructor.
  - simpl in Hm.
    set (s := fold_right Nat.mul 1%nat ds) in *.
    assert (Hs : s <> 0%nat) by (intros E; rewrite E in Hm; lia).
    constructor.
    + apply Nat.Div0.div_lt_upper_bound; lia.
    + apply IH, Nat.mod_upper_bound, Hs.
Qed.

(** [(A B)(A' B)^H], entry by entry, is [A (B B^H) A'^H]. *)
Lemma gram_sum (a a' : nat -> C) (b : nat -> nat -> C) K Ms :
  sumL (fun m => Cmul (sumL (fun k => Cmul (a k) (b k m)) K)
                      (Cconj (sumL (fun l => Cmul (a' l) (b l m)) K))) Ms =
  sumL (fun k =>
          sumL (fun l =>
                  Cmul (Cmul (a k) (Cconj (a' l)))
                       (sumL (fun m => Cmul (b k m) (Cconj (b l m))) Ms))
               K) K.
Proof.
  transitivity
    (sumL (fun m =>
             sumL (fun k =>
                     sumL (fun l =>
                             Cmul (Cmul (a k) (Cconj (a' l)))
                                  (Cmul (b k m) (Cconj (b l m)))) K) K) Ms).
  - apply sumL_ext; intros m _.
    rewrite <- sumL_scale_r; apply sumL_ext; intros k _.
    rewrite sumL_conj, <- sumL_scale_l; apply sumL_ext; intros l _.
    destruct (a k), (a' l), (b k m), (b l m); cplx; apply C_eq; ring.
  - rewrite sumL_swap; apply sumL_ext; intros k _.
    rewrite sumL_swap; apply sumL_ext; intros l _.
    apply sumL_scale_l.
Qed.

Lemma matmul_elem A B i j :
  elem (matmul A B) [i; j] =
  sumL (fun k => Cmul (elem A [i; k]) (elem B [k; j])) (seq 0 (ncols A)).
Proof. unfold matmul; cbn [elem]; apply Csum_sumL. Qed.

Lemma Cmul_scale_sum g (f : nat -> C) (h : nat -> C) l :
  sumL (fun k => Cmul (Cmul (f k) (RtoC g)) (h k)) l =
  Cmul (RtoC g) (sumL (fun k => Cmul (f k) (h k)) l).
Proof.
  rewrite <- sumL_scale_l; apply sumL_ext; intros k _.
  destruct (f k), (h k); cplx; apply C_eq; ring.
Qed.

(** What calculate_prewhitening returns once both routines have
    returned. *)
Lemma calculate_prewhitening_value chol inverse noise s N L Li :
  reshape_coil_samples noise = Return N -> (2 <= ncols N)%nat ->
  chol (noise_covariance N) = Return L -> inverse L = Return Li ->
  calculate_prewhitening chol inverse noise s =
  Return (mkArr (shape Li)
                (fun idx => match idx with
                            | [_; _] =>
                                Cmul (elem Li idx) (RtoC (sqrt 2 * sqrt s))
                            | _ => C0
                            end)).
Proof.
  intros E HM HL HLi; unfold calculate_prewhitening; rewrite E; cbn [bind].
  destruct (Req_EM_T (INR (ncols N) - 1) 0) as [H|_].
  - exfalso; apply le_INR in HM; simpl in HM; lra.
  - fold (noise_covariance N); rewrite HL; cbn [bind]; rewrite HLi.
    cbn [bind]; now rewrite scale_right_twice.
Qed.

Lemma decorrelated_entries
  (chol inverse : ndarray C -> result (ndarray C))
  (noise N L Li : ndarray C) (s : R) (n0 : nat) (rest : list nat) :
  shape noise = n0 :: rest -> n0 <> 0%nat ->
  (2 <= fold_right Nat.mul 1 rest)%nat -> 0 <= s ->
  reshape_coil_samples noise = Return N ->
  chol (noise_covariance N) = Return L -> inverse L = Return Li ->
  shape L = [n0; n0] -> shape Li = [n0; n0] ->
  (forall i j, (i < n0)%nat -> (j < n0)%nat ->
     elem (matmul L (mat_H L)) [i; j] = elem (noise_covariance N) [i; j]) ->
  (forall i j, (i < n0)%nat -> (j < n0)%nat ->
     elem (matmul Li L) [i; j] = elem (identity_matrix n0) [i; j]) ->
  exists W out N',
    calculate_prewhitening chol inverse noise s = Return W /\
    apply_prewhitening noise W = inr out /\
    reshape_coil_samples out = Return N' /\
    forall i j, (i < n0)%nat -> (j < n0)%nat ->
      elem (noise_covariance N') [i; j] =
      if (i =? j)%nat then RtoC (2 * s) else C0.
Proof.
  intros Hs Hn HM Hs0 EN HL HLi HsL HsLi Hfac Hinv.
  pose proof (@reshape_coil_samples_shape noise n0 rest Hs Hn) as EN'.
  rewrite EN in EN'; injection EN' as EN'.
  assert (HcN : ncols N = fold_right Nat.mul 1%nat rest)
    by (rewrite EN'; reflexivity).
  set (M := fold_right Nat.mul 1%nat rest) in *.
  set (g := sqrt 2 * sqrt s).
  pose proof (@calculate_prewhitening_value chol inverse noise s N L Li
                EN ltac:(lia) HL HLi) as EW.
  fold g in EW.
  set (W := mkArr (shape Li) _) in EW.
  assert (HsW : shape W = [n0; n0]) by exact HsLi.
  destruct (@apply_prewhitening_entries noise W n0 rest Hs Hn HsW)
    as (out & Eout & Hsout & Hout).
  rewrite Hs in Hsout.
  exists W, out; eexists.
  split; [exact EW|].
  split; [exact Eout|].
  split; [apply (@reshape_coil_samples_shape out n0 rest Hsout Hn)|].
  intros i j Hi Hj.
  rewrite noise_covariance_elem; unfold ncols at 1 2; cbn [shape nth elem].
  fold M.
  (* entries of the whitened samples *)
  assert (Hrow : forall c m, (c < n0)%nat -> In m (seq 0 M) ->
            elem out (c :: unravel rest m) =
            sumL (fun k => Cmul (elem W [c; k]) (elem N [k; m])) (seq 0 n0)).
  { intros c m Hc Hm; apply in_seq in Hm.
    rewrite (Hout c (unravel rest m) Hc)
      by (apply unravel_in_range; fold M; lia).
    rewrite Csum_sumL; apply sumL_ext; intros k _.
    rewrite EN'; reflexivity. }
  rewrite (sumL_ext _
             (fun m => Cmul (sumL (fun k => Cmul (elem W [i; k])
                                                 (elem N [k; m])) (seq 0 n0))
                            (Cconj (sumL (fun l => Cmul (elem W [j; l])
                                                        (elem N [l; m]))
                                         (seq 0 n0)))))
    by (intros m Hm; now rewrite !Hrow).
  rewrite gram_sum, <- sumL_scale_l.
  (* the covariance of the noise, then its factor *)
  rewrite (sumL_ext _
             (fun k => sumL (fun l =>
                Cmul (Cmul (elem W [i; k]) (Cconj (elem W [j; l])))
                     (sumL (fun p => Cmul (elem L [k; p])
                                          (Cconj (elem L [l; p])))
                           (seq 0 n0))) (seq 0 n0))).
  2:{ intros k Hk; apply in_seq in Hk.
      rewrite <- sumL_scale_l; apply sumL_ext; intros l Hl.
      apply in_seq in Hl.
      rewrite Cmul_assoc, (Cmul_comm (RtoC _)), <- Cmul_assoc; f_equal.
      rewrite <- HcN, <- noise_covariance_elem.
      rewrite <- Hfac by lia.
      rewrite matmul_elem; unfold ncols; rewrite HsL; cbn [nth].
      apply sumL_ext; intros p _; unfold mat_H; reflexivity. }
  rewrite <- gram_sum.
  (* the inverse *)
  assert (Hdelta : forall c p, (c < n0)%nat -> In p (seq 0 n0) ->
            sumL (fun k => Cmul (elem W [c; k]) (elem L [k; p])) (seq 0 n0) =
            Cmul (RtoC g) (if (c =? p)%nat then C1 else C0)).
  { intros c p Hc Hp; apply in_seq in Hp.
    unfold W; cbn [elem]; rewrite Cmul_scale_sum; f_equal.
    specialize (Hinv c p Hc ltac:(lia)).
    rewrite matmul_elem in Hinv; unfold ncols in Hinv.
    rewrite HsLi in Hinv; exact Hinv. }
  rewrite (sumL_ext _
             (fun p => Cmul (if (i =? p)%nat then C1 else C0)
                            (Cmul (RtoC (g * g))
                                  (if (j =? p)%nat then C1 else C0)))).
  2:{ intros p Hp; rewrite !Hdelta by assumption.
      destruct (i =? p)%nat, (j =? p)%nat; cplx; apply C_eq; ring. }
  rewrite (sumL_delta (fun p => Cmul (RtoC (g * g))
                                     (if (j =? p)%nat then C1 else C0))
             i n0 0).
  destruct (Nat.leb_spec 0 i); [|lia].
  destruct (Nat.ltb_spec i (0 + n0)); [|lia]; cbn [andb].
  assert (Hg : g * g = 2 * s).
  { unfold g.
    replace (sqrt 2 * sqrt s * (sqrt 2 * sqrt s))
      with ((sqrt 2 * sqrt 2) * (sqrt s * sqrt s)) by ring.
    rewrite !sqrt_sqrt by lra; reflexivity. }
  rewrite Hg, (Nat.eqb_sym j i).
  destruct (i =? j)%nat; cplx; apply C_eq; ring.
Qed.

(** X19.  Let the noise have a non-empty coil axis and at least two
    samples per coil, and let the two routines return a factor [L] with
    [L L^H] equal to the noise covariance and a matrix [Li] with [Li L]
    equal to the identity.  Then the matrix calculate_prewhitening
    returns, applied to the noise by apply_prewhitening, gives data whose
    covariance (formed as calculate_prewhitening forms it) is
    [2 * scale_factor] on the diagonal and 0 elsewhere. *)
Theorem whitened_noise_decorrelated
  (chol inverse : ndarray C -> result (ndarray C))
  (noise N L Li : ndarray C) (s : R) (n0 : nat) (rest : list nat) :
  shape noise = n0 :: rest -> n0 <> 0%nat ->
  (2 <= fold_right Nat.mul 1 rest)%nat -> 0 <= s ->
  reshape_coil_samples noise = Return N ->
  chol (noise_covariance N) = Return L -> inverse L = Return Li ->
  shape L = [n0; n0] -> shape Li = [n0; n0] ->
  (forall i j, (i < n0)%nat -> (j < n0)%nat ->
     elem (matmul L (mat_H L)) [i; j] = elem (noise_covariance N) [i; j]) ->
  (forall i j, (i < n0)%nat -> (j < n0)%nat ->
     elem (matmul Li L) [i; j] = elem (identity_matrix n0) [i; j]) ->
  exists W out N',
    calculate_prewhitening chol inverse noise s = Return W /\
    apply_prewhitening noise W = inr out /\
    reshape_coil_samples out = Return N' /\
    forall i j, (i < n0)%nat -> (j < n0)%nat ->
      elem (noise_covariance N') [i; j] =
      if (i =? j)%nat then RtoC (2 * s) else C0.
Proof. apply decorrelated_entries. Qed.

Lemma cholesky_shape A L : Linalg.cholesky A = Return L -> shape L = shape A.
Proof.
  unfold Linalg.cholesky.
  destruct (fold_left _ _ _) as [e|F]; cbn [bind]; [discriminate|].
  intros E; injection E as <-; reflexivity.
Qed.

Lemma inv_shape A W : Linalg.inv A = Return W -> shape W = shape A.
Proof.
  unfold Linalg.inv.
  destruct (fold_left _ _ _) as [e|F]; cbn [bind]; [discriminate|].
  intros E; injection E as <-; reflexivity.
Qed.

(** The two routines on the noise of one coil with the samples 1 and
    [1j]. *)
Lemma two_samples_factor :
  exists N L Li,
    reshape_coil_samples Inputs.noise_two_samples = Return N /\
    Linalg.cholesky (noise_covariance N) = Return L /\
    Linalg.inv L = Return Li /\
    shape L = [1; 1]%nat /\ shape Li = [1; 1]%nat /\
    elem (matmul L (mat_H L)) [0; 0]%nat = elem (noise_covariance N) [0; 0]%nat
    /\ elem (matmul Li L) [0; 0]%nat = C1.
Proof.
  destruct (reshape_coil_samples_returns Inputs.noise_two_samples)
    as [N E]; [vm_compute; lia|].
  destruct (two_samples_covariance E) as [Hn H00].
  assert (HD : noise_covariance N = Spec.sample_covariance N)
    by apply covariance_matrix_spec.
  assert (HsD : shape (Spec.sample_covariance N) = [1; 1]%nat).
  { rewrite reshape_two_samples in E; injection E as <-; reflexivity. }
  destruct (@cholesky_1x1 (Spec.sample_covariance N) Hn)
    as (L & EL & HL & HL00); [rewrite H00; cplx; lra|].
  assert (Hq : 0 < sqrt (2 - 0)) by (apply sqrt_lt_R0; lra).
  assert (Hq2 : sqrt (2 - 0) * sqrt (2 - 0) = 2) by (rewrite sqrt_sqrt; lra).
  rewrite H00 in HL00; cbv [Re fst] in HL00.
  destruct (@inv_1x1 L HL) as (Li & ELi & HLi);
    [rewrite HL00; cplx; lra|].
  pose proof (cholesky_shape _ EL) as HsL; rewrite HsD in HsL.
  pose proof (inv_shape _ ELi) as HsLi; rewrite HsL in HsLi.
  exists N, L, Li; rewrite HD.
  repeat (split; [assumption|]).
  rewrite !matmul_elem; unfold ncols; rewrite HsL, HsLi; cbn [nth].
  unfold sumL, mat_H; cbn [seq map fold_right elem].
  rewrite H00, HLi, HL00.
  revert Hq Hq2; generalize (sqrt (2 - 0)); intros t Hq Hq2.
  split.
  - cplx; apply C_eq; lra.
  - rewrite Cdiv_real by lra; cplx; apply C_eq; [|field; lra].
    transitivity (t * t / (t * t)); [field; lra|rewrite Hq2; field].
Qed.

Lemma whitened_noise_decorrelated_witness :
  exists N L Li,
    shape Inputs.noise_two_samples = [1; 2]%nat /\
    1%nat <> 0%nat /\
    (2 <= fold_right Nat.mul 1 [2])%nat /\
    0 <= 1 /\
    reshape_coil_samples Inputs.noise_two_samples = Return N /\
    Linalg.cholesky (noise_covariance N) = Return L /\
    Linalg.inv L = Return Li /\
    shape L = [1; 1]%nat /\ shape Li = [1; 1]%nat /\
    (forall i j, (i < 1)%nat -> (j < 1)%nat ->
       elem (matmul L (mat_H L)) [i; j] = elem (noise_covariance N) [i; j]) /\
    (forall i j, (i < 1)%nat -> (j < 1)%nat ->
       elem (matmul Li L) [i; j] = elem (identity_matrix 1) [i; j]) /\
    exists W out N',
      calculate_prewhitening Linalg.cholesky Linalg.inv
                             Inputs.noise_two_samples 1 = Return W /\
      apply_prewhitening Inputs.noise_two_samples W = inr out /\
      reshape_coil_samples out = Return N' /\
      forall i j, (i < 1)%nat -> (j < 1)%nat ->
        elem (noise_covariance N') [i; j] =
        if (i =? j)%nat then RtoC (2 * 1) else C0.
Proof.
  destruct two_samples_factor
    as (N & L & Li & EN & EL & ELi & HsL & HsLi & Hfac & Hinv).
  assert (F : forall i j, (i < 1)%nat -> (j < 1)%nat ->
                elem (matmul L (mat_H L)) [i; j] =
                elem (noise_covariance N) [i; j]).
  { intros i j Hi Hj; replace i with 0%nat by lia; replace j with 0%nat by lia.
    exact Hfac. }
  assert (I : forall i j, (i < 1)%nat -> (j < 1)%nat ->
                elem (matmul Li L) [i; j] = elem (identity_matrix 1) [i; j]).
  { intros i j Hi Hj; replace i with 0%nat by lia; replace j with 0%nat by lia.
    exact Hinv. }
  exists N, L, Li.
  split; [reflexivity|]; split; [discriminate|]; split; [simpl; lia|].
  split; [lra|].
  repeat (split; [assumption|]).
  apply (@whitened_noise_decorrelated Linalg.cholesky Linalg.inv
           Inputs.noise_two_samples N L Li 1 1 [2%nat]);
    try assumption; try reflexivity; try discriminate; try lra.
Defined.

(** ** Data and noise without coils *)

(** X20.  An array whose first axis is empty makes both functions raise
    [ZeroDivisionError], from the division by [shape[0]]:
    calculate_prewhitening before either routine is called,
    apply_prewhitening for every matrix of two dimensions. *)
Theorem empty_coil_axis
  (chol inverse : ndarray C -> result (ndarray C))
  (x dmtx : ndarray C) (s : R) (rest : list nat) (r c : nat) :
  shape x = 0%nat :: rest -> shape dmtx = [r; c] ->
  calculate_prewhitening chol inverse x s = Raise ZeroDivisionError /\
  apply_prewhitening x dmtx = inl (ReshapeError ZeroDivisionError).
Proof.
  intros Hx Hd.
  assert (E : reshape_coil_samples x = Raise ZeroDivisionError)
    by (unfold reshape_coil_samples; now rewrite Hx).
  split.
  - unfold calculate_prewhitening; now rewrite E.
  - unfold apply_prewhitening, asmatrix; now rewrite Hd, E.
Qed.

Lemma empty_coil_axis_witness :
  shape no_coils = [0; 8]%nat /\
  shape (identity_matrix 2) = [2; 2]%nat /\
  calculate_prewhitening Linalg.cholesky Linalg.inv
    no_coils 1 = Raise ZeroDivisionError /\
  apply_prewhitening no_coils (identity_matrix 2)
    = inl (ReshapeError ZeroDivisionError).
Proof.
  split; [reflexivity|]; split; [reflexivity|].
  apply (@empty_coil_axis Linalg.cholesky Linalg.inv
           no_coils (identity_matrix 2) 1
           [8%nat] 2 2); reflexivity.
Defined.

(** ** apply_prewhitening is additive in the data *)

(** X21.  Applying a matrix to the sum of two data arrays of the same
    shape gives, at every position, the sum of what applying it to each
    gives. *)
Theorem apply_prewhitening_add
  (a b dmtx : ndarray C) (n0 : nat) (rest : list nat) :
  shape a = n0 :: rest -> shape b = n0 :: rest -> n0 <> 0%nat ->
  shape dmtx = [n0; n0] ->
  exists outa outb outab,
    apply_prewhitening a dmtx = inr outa /\
    apply_prewhitening b dmtx = inr outb /\
    apply_prewhitening (arr_add a b) dmtx = inr outab /\
    forall idx, in_range (n0 :: rest) idx ->
                elem outab idx = Cadd (elem outa idx) (elem outb idx).
Proof.
  intros Ha Hb Hn Hd.
  destruct (@apply_prewhitening_entries a dmtx n0 rest Ha Hn Hd)
    as (outa & Ea & _ & Houta).
  destruct (@apply_prewhitening_entries b dmtx n0 rest Hb Hn Hd)
    as (outb & Eb & _ & Houtb).
  destruct (@apply_prewhitening_entries (arr_add a b) dmtx n0 rest Ha Hn Hd)
    as (outab & Eab & _ & Houtab).
  exists outa, outb, outab; repeat (split; [assumption|]).
  intros idx Hidx; unfold in_range in Hidx.
  inversion Hidx as [|c d ridx ds Hc Hr]; subst.
  rewrite (Houta c ridx Hc Hr), (Houtb c ridx Hc Hr), (Houtab c ridx Hc Hr).
  rewrite !Csum_sumL, <- sumL_add; apply sumL_ext; intros k _.
  unfold arr_add; cbn [elem]; apply Cmul_add_distr_l.
Qed.

Lemma apply_prewhitening_add_witness :
  shape Inputs.two_coil_constant = [2; 4; 4]%nat /\
  2%nat <> 0%nat /\
  shape (identity_matrix 2) = [2; 2]%nat /\
  exists outa outb outab,
    apply_prewhitening Inputs.two_coil_constant (identity_matrix 2)
      = inr outa /\
    apply_prewhitening Inputs.two_coil_constant (identity_matrix 2)
      = inr outb /\
    apply_prewhitening
      (arr_add Inputs.two_coil_constant Inputs.two_coil_constant)
      (identity_matrix 2) = inr outab /\
    forall idx, in_range [2; 4; 4]%nat idx ->
                elem outab idx = Cadd (elem outa idx) (elem outb idx).
Proof.
  split; [reflexivity|]; split; [discriminate|]; split; [reflexivity|].
  apply (@apply_prewhitening_add Inputs.two_coil_constant
           Inputs.two_coil_constant (identity_matrix 2) 2 [4; 4]%nat);
    [reflexivity|reflexivity|discriminate|reflexivity].
Defined.

(** ** A stack of two coils that is not degenerate *)

Lemma two_coil_real_elem c idx :
  elem Inputs.two_coil_real (c :: idx) = Inputs.two_coil_real_value c.
Proof. destruct c; reflexivity. Qed.

(** The stack with coil values 2 and 3 has the covariance matrix
    [[4, 6], [6, 9]] at every pixel, whatever the smoothing window. *)
Lemma two_coil_real_matrix smoothing y x :
  smoothed_local_matrix Inputs.two_coil_real smoothing y x =
  outer [RtoC 2; RtoC 3].
Proof.
  unfold smoothed_local_matrix, local_matrix, outer.
  cbn [Inputs.two_coil_real shape nth seq map].
  rewrite !(@smooth_covariance_const _ Inputs.two_coil_real_value smoothing
              _ _ _ two_coil_real_elem).
  reflexivity.
Qed.

(** On a matrix [u u^H] every product after the first is a multiple of
    [u], so that the first two norms decide. *)
Lemma rank_one_nondegenerate n u niter :
  norm (sum_axis0 n (outer u)) <> 0 ->
  norm (dot (outer u) (unit_vector (sum_axis0 n (outer u)))) <> 0 ->
  nondegenerate n (outer u) niter.
Proof.
  intros H0 H1.
  assert (G : forall k, norm (iterate_product n (outer u) (S k)) <> 0).
  { induction k as [|k IH]; [exact H1|].
    rewrite iterate_outer_form in IH.
    change (iterate_product n (outer u) (S (S k)))
      with (dot (outer u) (unit_vector (iterate_product n (outer u) (S k)))).
    rewrite iterate_outer_form, rank_one_power by exact IH.
    rewrite norm_scale_c in IH.
    rewrite <- norm_sqr; intros E; apply IH.
    assert (E0 : norm u = 0) by nra.
    rewrite E0; lra. }
  intros [|k] _; [exact H0|apply G].
Qed.

Lemma two_coil_real_nondegenerate smoothing niter y x :
  nondegenerate (nth 0 (shape Inputs.two_coil_real) 0%nat)
                (smoothed_local_matrix Inputs.two_coil_real smoothing y x)
                niter.
Proof.
  rewrite two_coil_real_matrix; cbn [Inputs.two_coil_real shape nth].
  assert (Es : sum_axis0 2 (outer [RtoC 2; RtoC 3]) = [(10, 0); (15, 0)]).
  { unfold sum_axis0, vadd, outer.
    cbn [repeat fold_left combine map]; cplx; vec_eq. }
  assert (Hq : sumsq [(10, 0); (15, 0)] = 325)
    by (unfold sumsq; cbn [map fold_right]; cplx; lra).
  assert (Hl : norm [(10, 0); (15, 0)] <> 0).
  { intros E; pose proof (norm_sqr [(10, 0); (15, 0)]) as H.
    rewrite E, Hq in H; lra. }
  apply rank_one_nondegenerate; rewrite Es; [exact Hl|].
  rewrite dot_outer, norm_scale_c.
  unfold unit_vector; cbn [map]; rewrite !Cdiv_real by exact Hl.
  revert Hl; generalize (norm [(10, 0); (15, 0)]); intros l Hl.
  assert (Hu : sumsq [RtoC 2; RtoC 3] = 13)
    by (unfold sumsq; cbn [map fold_right]; cplx; lra).
  assert (Hnu : norm [RtoC 2; RtoC 3] <> 0).
  { intros E; pose proof (norm_sqr [RtoC 2; RtoC 3]) as H.
    rewrite E, Hu in H; lra. }
  match goal with
  | |- sqrt ?a * _ <> 0 =>
      assert (Hs : a = 4225 / (l * l))
        by (unfold inner, Csum; cbn [combine map fold_left]; cplx;
            field; exact Hl);
      rewrite Hs
  end.
  assert (Hpos : 0 < 4225 / (l * l)).
  { apply Rdiv_lt_0_compat; [lra|nra]. }
  pose proof (sqrt_lt_R0 _ Hpos) as Hsq.
  intros E; apply Rmult_integral in E; destruct E as [E|E]; [lra|].
  contradiction.
Qed.



Lemma two_coil_real_sumsq y x :
  sumsq (pixel_vector Inputs.two_coil_real y x) = 13.
Proof.
  unfold sumsq, pixel_vector.
  cbn [Inputs.two_coil_real shape nth seq map elem fold_right]; cplx; lra.
Qed.



(** ** The four steps on two coils with two samples each *)

(** The samples [1, 0] and [1j, 1] have the covariance
    [[1, -1j], [1j, 2]]. *)
Lemma two_coils_covariance N :
  reshape_coil_samples Inputs.noise_two_coils = Return N ->
  shape (noise_covariance N) = [2; 2]%nat /\
  elem (noise_covariance N) [0; 0]%nat = (1, 0) /\
  elem (noise_covariance N) [0; 1]%nat = (0, -1) /\
  elem (noise_covariance N) [1; 0]%nat = (0, 1) /\
  elem (noise_covariance N) [1; 1]%nat = (2, 0).
Proof.
  intros E; vm_compute in E; injection E as <-.
  split; [reflexivity|].
  unfold noise_covariance, scale_left, matmul, mat_H, ncols, nrows, Csum.
  cbn [shape nth elem seq map fold_left].
  simpl INR; cplx.
  repeat split; apply C_eq; field.
Qed.

(** The exact Cholesky routine on [[1, .], [1j, 2]] returns
    [[1, 0], [1j, 1]]. *)
Lemma cholesky_2x2 A :
  nrows A = 2%nat ->
  elem A [0; 0]%nat = (1, 0) ->
  elem A [1; 0]%nat = (0, 1) ->
  elem A [1; 1]%nat = (2, 0) ->
  exists L, Linalg.cholesky A = Return L /\
            elem L [0; 0]%nat = (1, 0) /\ elem L [0; 1]%nat = (0, 0) /\
            elem L [1; 0]%nat = (0, 1) /\ elem L [1; 1]%nat = (1, 0).
Proof.
  intros Hn H00 H10 H11; unfold Linalg.cholesky; rewrite Hn.
  cbn [seq fold_left]; unfold Linalg.cholesky_column at 2; cbn [bind].
  unfold Rsum at 1; cbn [seq map fold_right].
  rewrite H00; cbv [Re fst].
  assert (Hs : sqrt (1 - Rsum (fun _ : nat => Cabs2 C0) 0) = 1).
  { unfold Rsum; cbn [seq map fold_right].
    replace (1 - 0) with 1 by lra; apply sqrt_1. }
  rewrite Hs.
  destruct (Rlt_dec 0 (1 - 0)) as [_|H]; [|exfalso; apply H; lra].
  unfold Linalg.cholesky_column; cbn [bind].
  cbn [Nat.eqb Nat.ltb Nat.leb].
  match goal with
  | |- context [Rlt_dec 0 ?d] =>
      assert (Hd : d = 1)
        by (rewrite H11, H10; unfold Rsum, Csum;
            cbn [seq map fold_right fold_left Nat.eqb]; cplx; field);
      rewrite Hd
  end.
  rewrite sqrt_1.
  destruct (Rlt_dec 0 1) as [_|H]; [|exfalso; apply H; lra].
  cbn [bind]; eexists; split; [reflexivity|].
  cbn [elem Nat.eqb Nat.ltb Nat.leb]; rewrite H10.
  unfold Csum; cbn [fold_left]; cplx.
  repeat split; apply C_eq; field.
Qed.

(** The exact inversion routine on [[1, 0], [1j, 1]] returns
    [[1, 0], [-1j, 1]]. *)
Lemma inv_2x2 L :
  nrows L = 2%nat ->
  elem L [0; 0]%nat = (1, 0) -> elem L [0; 1]%nat = (0, 0) ->
  elem L [1; 0]%nat = (0, 1) -> elem L [1; 1]%nat = (1, 0) ->
  exists W, Linalg.inv L = Return W /\
            elem W [0; 0]%nat = (1, 0) /\ elem W [0; 1]%nat = (0, 0) /\
            elem W [1; 0]%nat = (0, -1) /\ elem W [1; 1]%nat = (1, 0).
Proof.
  intros Hn H00 H01 H10 H11; unfold Linalg.inv; rewrite Hn.
  cbn [seq fold_left]; unfold Linalg.gauss_jordan_column at 2.
  cbn [bind fst snd Nat.sub seq find]; rewrite H00.
  unfold Linalg.Cis_zero at 1; cbv [Re fst].
  destruct (Req_EM_T 1 0) as [H|_]; [lra|].
  cbn [negb]; unfold Linalg.gauss_jordan_column.
  cbn [bind fst snd Nat.sub seq find].
  match goal with
  | |- context [Linalg.Cis_zero ?z] =>
      assert (Hp : z = (1, 0))
        by (unfold Linalg.eliminate, Linalg.swap_rows; cbn [Nat.eqb];
            rewrite H00, H01, H10, H11; cplx; apply C_eq; field);
      rewrite Hp
  end.
  unfold Linalg.Cis_zero; cbv [Re fst].
  destruct (Req_EM_T 1 0) as [H|_]; [lra|].
  cbn [negb bind]; eexists; split; [reflexivity|].
  cbn [elem snd]; unfold Linalg.eliminate, Linalg.swap_rows; cbn [Nat.eqb].
  rewrite H00, H01, H10, H11; cplx.
  repeat split; apply C_eq; field.
Qed.

(** On that noise the two exact routines return the Cholesky factor of
    the covariance and its inverse. *)
Lemma two_coils_routines N :
  reshape_coil_samples Inputs.noise_two_coils = Return N ->
  exists L Li,
    Linalg.cholesky (noise_covariance N) = Return L /\
    Spec.cholesky_factor 2 L (noise_covariance N) /\
    Linalg.inv L = Return Li /\
    Spec.inverse_of 2 Li L /\
    shape Li = [2; 2]%nat.
Proof.
  intros E.
  destruct (two_coils_covariance E) as (HsA & A00 & A01 & A10 & A11).
  destruct (@cholesky_2x2 (noise_covariance N))
    as (L & EL & L00 & L01 & L10 & L11);
    [unfold nrows; rewrite HsA; reflexivity|assumption..|].
  pose proof (cholesky_shape _ EL) as HsL; rewrite HsA in HsL.
  destruct (@inv_2x2 L) as (Li & ELi & W00 & W01 & W10 & W11);
    [unfold nrows; rewrite HsL; reflexivity|assumption..|].
  pose proof (inv_shape _ ELi) as HsLi; rewrite HsL in HsLi.
  exists L, Li.
  split; [exact EL|]; split; [|split; [exact ELi|split; [|exact HsLi]]].
  - split; [|split].
    + intros i j Hij Hj.
      assert (Ei : i = 0%nat) by lia; assert (Ej : j = 1%nat) by lia.
      subst i j; exact L01.
    + intros [|[|i]] Hi; [rewrite L00|rewrite L11|lia];
        cplx; split; (reflexivity || lra).
    + intros [|[|i]] [|[|j]] Hi Hj; try lia;
        unfold Spec.entry_sum; cbn [seq map fold_right];
        rewrite ?L00, ?L01, ?L10, ?L11, ?A00, ?A01, ?A10, ?A11;
        cplx; apply C_eq; lra.
  - intros [|[|i]] [|[|j]] Hi Hj; try lia;
      unfold Spec.entry_sum; cbn [seq map fold_right Nat.eqb];
      rewrite ?L00, ?L01, ?L10, ?L11, ?W00, ?W01, ?W10, ?W11;
      cplx; apply C_eq; lra.
Qed.

